(** * Assemblance: verification of the assembly annotator [parse.py]

    A shallow embedding of [src/parse.py]: the tokenizer, the mnemonic
    resolver with its mutable reference table, the operand annotator with
    the request-scoped Flask object [g], and the main loop [process_asm]
    with its colour map.  HTML templates are modelled as markup pieces,
    one constructor per format string of the source. *)

From Stdlib Require Import ZArith Ascii String List Bool Lia.
From stdpp Require Import base gmap strings list.

Import ListNotations.
Open Scope string_scope.
Open Scope list_scope.

(* ------------------------------------------------------------------ *)
(** ** Python string helpers *)

(** [str.isspace] on one character (also the class [\s] of [re] on str
    patterns): tab, newline, vertical tab, form feed, carriage return,
    the separators 0x1c-0x1f, space, NEL and no-break space. *)
Definition is_py_space (c : ascii) : bool :=
  let n := nat_of_ascii c in
  ((9 <=? n) && (n <=? 13))%nat || ((28 <=? n) && (n <=? 32))%nat
  || (n =? 133)%nat || (n =? 160)%nat.

Definition is_sep (c : ascii) : bool := is_py_space c || (c =? ",")%char.

Definition str1 (c : ascii) : string := String c EmptyString.

(** [s.split(sep)] for a one-character separator. *)
Fixpoint split_char (sep : ascii) (s : string) : list string :=
  match s with
  | EmptyString => [EmptyString]
  | String c rest =>
      let parts := split_char sep rest in
      if (c =? sep)%char then EmptyString :: parts
      else match parts with
           | p :: ps => String c p :: ps
           | [] => [str1 c]
           end
  end.

(** [s.lstrip(chars)] for a character class. *)
Fixpoint lstrip_by (p : ascii -> bool) (s : string) : string :=
  match s with
  | EmptyString => EmptyString
  | String c rest => if p c then lstrip_by p rest else s
  end.

Fixpoint rev_str (s : string) : string :=
  match s with
  | EmptyString => EmptyString
  | String c rest => rev_str rest +:+ str1 c
  end.

Definition rstrip_by (p : ascii -> bool) (s : string) : string :=
  rev_str (lstrip_by p (rev_str s)).

Definition strip_by (p : ascii -> bool) (s : string) : string :=
  rstrip_by p (lstrip_by p s).

(** [s.strip()] *)
Definition py_strip (s : string) : string := strip_by is_py_space s.

(** [re.split(pat, s)] where [pat] matches maximal runs of characters of a
    class: a separator run at either end yields an empty piece there. *)
Fixpoint split_runs_aux (p : ascii -> bool) (s : string) (cur : string)
    (in_sep : bool) : list string :=
  match s with
  | EmptyString => [cur]
  | String c rest =>
      if p c then
        if in_sep then split_runs_aux p rest cur true
        else cur :: split_runs_aux p rest EmptyString true
      else split_runs_aux p rest (cur +:+ str1 c) false
  end.

Definition split_runs (p : ascii -> bool) (s : string) : list string :=
  split_runs_aux p s EmptyString false.

(** [s.split()] with no argument: whitespace runs, empty pieces dropped. *)
Definition py_split (s : string) : list string :=
  List.filter (fun x => negb (String.eqb x EmptyString)) (split_runs is_py_space s).

Fixpoint has_char (c : ascii) (s : string) : bool :=
  match s with
  | EmptyString => false
  | String d rest => (d =? c)%char || has_char c rest
  end.

Fixpoint startswith (pre s : string) : bool :=
  match pre, s with
  | EmptyString, _ => true
  | String a pre', String b s' => (a =? b)%char && startswith pre' s'
  | String _ _, EmptyString => false
  end.

Definition endswith (suf s : string) : bool :=
  startswith (rev_str suf) (rev_str s).

(** [sub in s] for strings. *)
Fixpoint contains (sub s : string) : bool :=
  startswith sub s ||
  match s with
  | EmptyString => false
  | String _ rest => contains sub rest
  end.

(** [x in xs] for a list of strings. *)
Definition mem_str (x : string) (xs : list string) : bool :=
  existsb (String.eqb x) xs.

(** [s.replace(c, r)] for a one-character pattern. *)
Fixpoint replace_char (c : ascii) (r : string) (s : string) : string :=
  match s with
  | EmptyString => EmptyString
  | String d rest =>
      (if (d =? c)%char then r else str1 d) +:+ replace_char c r rest
  end.

(* ------------------------------------------------------------------ *)
(** ** [tokenize] *)

Definition quote_char : ascii := "034".
Definition hash_char : ascii := "#".

(** The quote branch: pieces at even index are split on whitespace,
    pieces at odd index are re-wrapped in quotes as one token. *)
Fixpoint quote_tokens (i : nat) (bits : list string) : list string :=
  match bits with
  | [] => []
  | bit :: rest =>
      (if Nat.even i then py_split bit
       else [str1 quote_char +:+ bit +:+ str1 quote_char])
      ++ quote_tokens (S i) rest
  end.

Definition tokenize (line : string) : list string :=
  let line := hd EmptyString (split_char hash_char line) in
  let line := py_strip line in
  if negb (has_char quote_char line) then split_runs is_sep line
  else quote_tokens 0 (split_char quote_char line).

(* ------------------------------------------------------------------ *)
(** ** Module constants *)

Definition ncolors : Z := 5.

(** [sizes = {'q': 8, 'l' : 4, 'w' : 2, 'b' : 1}] *)
Definition sizes (c : ascii) : option Z :=
  if (c =? "q")%char then Some 8%Z
  else if (c =? "l")%char then Some 4%Z
  else if (c =? "w")%char then Some 2%Z
  else if (c =? "b")%char then Some 1%Z
  else None.

Definition whitelist : list string :=
  [".section"; ".globl"; ".byte"; ".word";
   ".long"; ".quad"; ".type"; ".asciz"; ".ascii"; ".string"; ".skip"].

(** [badlabel.match(s)] for the pattern
    ['((.LF)|(.Ltemp)|(.Ltmp)|(.Ltext)|(.LVL)|(.Lfunc)|(.Letext)).*']:
    the unescaped [.] matches any character but a newline, the trailing
    [.*] always matches. *)
Definition badlabel_match (s : string) : bool :=
  match s with
  | EmptyString => false
  | String c rest =>
      negb (c =? "010")%char &&
      existsb (fun p => startswith p rest)
        ["LF"; "Ltemp"; "Ltmp"; "Ltext"; "LVL"; "Lfunc"; "Letext"]
  end.

(* ------------------------------------------------------------------ *)
(** ** Data: reference entries, location entries, the Flask object [g] *)

(** A value of [ref.json]: [{name, syn, desc, flags, size}]. *)
Record entry := mkEntry {
  e_name : string; e_syn : string; e_desc : string; e_flags : string;
  e_size : list Z }.

(** A value of [g.locs[fcn]]: [{type, name, line, role}]. *)
Record locentry := mkLoc {
  l_type : string; l_name : string; l_line : string; l_role : string }.

(** Attribute values stored on [g]: [None], a string, or the location
    table [g.locs] keyed by function name, then by symbol. *)
Inductive gval :=
  | GNone
  | GStr (s : string)
  | GLocs (m : gmap string (gmap string locentry)).

(** Global mutable state of a run: the request object [g] (attribute name
    to value) and the module-level table [ref], whose entries
    [handle_mnemonic] edits in place. *)
Record world := mkWorld {
  w_g : gmap string gval;
  w_ref : gmap string entry }.

Inductive exn :=
  | AttributeError (attr : string)
  | KeyError
  | IndexError
  | ValueError
  | TypeError.

Inductive result (A : Type) :=
  | Ok (a : A)
  | Err (e : exn).
Arguments Ok {A} a.
Arguments Err {A} e.

(** State and exception monad over [world]; an exception keeps the world
    as it was when raised (Python does not roll back mutations). *)
Definition M (A : Type) : Type := world -> result A * world.

Definition mret {A} (a : A) : M A := fun w => (Ok a, w).
Definition raise {A} (e : exn) : M A := fun w => (Err e, w).
Definition mbind {A B} (m : M A) (k : A -> M B) : M B :=
  fun w => match m w with
           | (Ok a, w') => k a w'
           | (Err e, w') => (Err e, w')
           end.
Notation "x <- m ;; k" := (mbind m (fun x => k))
  (at level 100, m at next level, right associativity).

Definition lift {A} (r : result A) : M A :=
  match r with Ok a => mret a | Err e => raise e end.

Definition get_ref : M (gmap string entry) := fun w => (Ok (w_ref w), w).
Definition set_ref (r : gmap string entry) : M unit :=
  fun w => (Ok tt, mkWorld (w_g w) r).

(** [g.attr]: a missing attribute raises [AttributeError]. *)
Definition g_get (a : string) : M gval :=
  fun w => match w_g w !! a with
           | Some v => (Ok v, w)
           | None => (Err (AttributeError a), w)
           end.
(** [g.attr = v] *)
Definition g_set (a : string) (v : gval) : M unit :=
  fun w => (Ok tt, mkWorld (<[a := v]> (w_g w)) (w_ref w)).

(* ------------------------------------------------------------------ *)
(** ** Markup *)

(** Contents of a wrapped token: plain text, or a highlighted operand with
    the optional [location] tooltip (entry and [g.fcn]). *)
Inductive content :=
  | CText (s : string)
  | COperand (tok : string) (loc : option (locentry * string)).

(** One constructor per markup string produced by the source. *)
Inductive piece :=
  | PHeaderOpen                        (* '<div class="asm-header">' *)
  | PCloseLoc                          (* '</div><!-- /.loc -->\n' *)
  | PEnd                               (* final '</div><!-- /.loc -->' *)
  | PColorDiv (cline color : Z)        (* colordiv.format(cline, color) *)
  | PLineLabel (cline : Z)             (* linelabel.format(cline) *)
  | PLineOpen                          (* '<div class="asm-line">' *)
  | PLineNo (n : Z)                    (* div of class asm-no *)
  | PLineClose                         (* '</div>' *)
  | PWrap (cl : string) (cx : content) (* wrap_token(cx, cl) *)
  | PMnemonic (mnem : string) (e : entry). (* mnemonic div with tooltip *)

Definition wrap_token (token cl : string) : piece := PWrap cl (CText token).

(* ------------------------------------------------------------------ *)
(** ** [handle_mnemonic] *)

(** [token[:-1]] and [token[-1]] *)
Definition drop_last (s : string) : string :=
  rev_str (match rev_str s with EmptyString => EmptyString | String _ r => r end).
Definition last_char (s : string) : option ascii :=
  match rev_str s with EmptyString => None | String c _ => Some c end.

(** [entry['size'] = [(sz if s == 0 else s) for s in entry['size']]] *)
Definition resize (sz : Z) (e : entry) : entry :=
  mkEntry (e_name e) (e_syn e) (e_desc e) (e_flags e)
    (map (fun s => if (s =? 0)%Z then sz else s) (e_size e)).

Definition handle_mnemonic (token cl : string) : M piece :=
  ref <- get_ref ;;
  match ref !! token with
  | Some e => mret (PMnemonic token e)
  | None =>
      let base := drop_last token in
      match ref !! base with
      | Some e =>
          match last_char token with
          | None => raise IndexError
          | Some suffix =>
              match sizes suffix with
              | None => mret (wrap_token token cl)
              | Some sz =>
                  (* the dict [ref[base]] is edited in place *)
                  let e' := resize sz e in
                  _ <- set_ref (<[base := e']> ref) ;;
                  mret (PMnemonic token e')
              end
          end
      | None => mret (wrap_token token cl)
      end
  end.

(* ------------------------------------------------------------------ *)
(** ** [process_operand] and [process_tokens] *)

Definition is_comma (c : ascii) : bool := (c =? ",")%char.

(** [g.locs[g.fcn].get(token.rstrip(','), None)]: [g.locs] is read
    first, then [g.fcn], then the subscript. *)
Definition lookup_location (token : string) : M (option (locentry * string)) :=
  locs <- g_get "locs" ;;
  fcn <- g_get "fcn" ;;
  match locs with
  | GLocs m =>
      match fcn with
      | GStr f =>
          match m !! f with
          | Some tbl =>
              mret (match tbl !! rstrip_by is_comma token with
                    | Some e => Some (e, f)
                    | None => None
                    end)
          | None => raise KeyError
          end
      | GNone => raise KeyError
      | GLocs _ => raise TypeError
      end
  | _ => raise TypeError
  end.

(** The highlighting by [pygments] is kept abstract: the operand text
    is recorded as it is passed to [highlight]. *)
Definition process_operand (token : string) : M (list piece) :=
  if startswith "#" token then mret []
  else loc <- lookup_location token ;;
       mret [PWrap "asm-token asm-operand" (COperand token loc)].

Fixpoint process_operands (tokens : list string) : M (list piece) :=
  match tokens with
  | [] => mret []
  | t :: rest =>
      p <- process_operand t ;;
      ps <- process_operands rest ;;
      mret (p ++ ps)
  end.

(** [if tokens[0] == 'rep': tokens[0] += ' ' + tokens.pop(1)] *)
Definition merge_rep (tokens : list string) : result (list string) :=
  match tokens with
  | t0 :: rest =>
      if String.eqb t0 "rep" then
        match rest with
        | t1 :: rest' => Ok ((t0 +:+ " " +:+ t1) :: rest')
        | [] => Err IndexError
        end
      else Ok tokens
  | [] => Err IndexError
  end.

Definition process_tokens (tokens : list string) : M (list piece) :=
  tokens <- lift (merge_rep tokens) ;;
  match tokens with
  | [] => raise IndexError
  | t0 :: rest =>
      if endswith ":" t0 then mret [wrap_token t0 "asm-token asm-label"]
      else if startswith "." t0 then
        mret (wrap_token t0 "asm-token asm-directive"
              :: map (fun t => wrap_token t "asm-token") rest)
      else
        m <- handle_mnemonic t0 "asm-token asm-mnemonic" ;;
        ops <- process_operands rest ;;
        mret (m :: ops)
  end.

(* ------------------------------------------------------------------ *)
(** ** [process_asm] *)

(** [int(s)] on a decimal literal: optional sign, digits, single
    underscores between digits, surrounding whitespace. *)
Fixpoint digits_val (s : string) (acc : Z) (prev_digit : bool) : option Z :=
  match s with
  | EmptyString => if prev_digit then Some acc else None
  | String c rest =>
      let n := nat_of_ascii c in
      if ((48 <=? n) && (n <=? 57))%nat then
        digits_val rest (acc * 10 + Z.of_nat (n - 48))%Z true
      else if (c =? "_")%char && prev_digit then digits_val rest acc false
      else None
  end.

Definition py_int (s : string) : result Z :=
  let s := py_strip s in
  let r := match s with
           | String "-" rest => option_map Z.opp (digits_val rest 0 false)
           | String "+" rest => digits_val rest 0 false
           | _ => digits_val s 0 false
           end in
  match r with Some z => Ok z | None => Err ValueError end.

(** Local variables of the loop of [process_asm]. *)
Record st := mkSt {
  markup : list piece;
  block_is_open : bool;
  colors : gmap Z Z;
  blocknum : Z;
  asmline : Z }.

Definition init_st : st := mkSt [PHeaderOpen] true ∅ 0 0.

(** [if cline not in colors: colors[cline] = (blocknum % ncolors) + 1;
    blocknum += 1] *)
Definition assign_color (cs : gmap Z Z) (bn : Z) (cline : Z) : gmap Z Z * Z :=
  match cs !! cline with
  | Some _ => (cs, bn)
  | None => (<[cline := (bn mod ncolors + 1)%Z]> cs, (bn + 1)%Z)
  end.

(** [elif block_is_open: markup += '</div>...'; block_is_open = False] *)
Definition close_block (s : st) : st :=
  if block_is_open s
  then mkSt (markup s ++ [PCloseLoc]) false (colors s) (blocknum s) (asmline s)
  else s.

Definition tab_char : ascii := "009".

Definition prep_line (line : string) : string :=
  let line := replace_char "<" "&lt;" line in
  let line := replace_char ">" "&gt;" line in
  replace_char tab_char "    " line.

(** One iteration of the loop over [asm]; [true] is [break]. *)
Definition step (s : st) (line : string) : M (bool * st) :=
  let tokens := tokenize (prep_line line) in
  match tokens with
  | [] => raise IndexError
  | t0 :: trest =>
    if String.eqb t0 "" then mret (false, s)
    else if String.eqb t0 ".loc" then
      ctok <- lift (match nth_error tokens 2 with
                    | Some c => Ok c | None => Err IndexError end) ;;
      cline <- lift (py_int ctok) ;;
      let '(cs, bn) := assign_color (colors s) (blocknum s) cline in
      match cs !! cline with
      | None => raise KeyError
      | Some color =>
          let m := markup s ++ (if block_is_open s then [PCloseLoc] else [])
                   ++ [PColorDiv cline color; PLineLabel cline] in
          mret (false, mkSt m true cs bn (asmline s))
      end
    else
      (* directives *)
      let dir_skip := startswith "." t0 && negb (endswith ":" t0)
                      && negb (mem_str t0 whitelist) in
      if dir_skip then mret (false, s) else
      let s1 := if startswith "." t0 then close_block s else s in
      (* labels *)
      if endswith ":" t0 && badlabel_match t0 then mret (false, s1) else
      let s2 := if endswith ":" t0 then close_block s1 else s1 in
      (* debug sections *)
      if match trest with t1 :: _ => contains ".debug" t1 | [] => false end
      then mret (true, s2) else
      _ <- (if mem_str "@function" tokens then
              match trest with
              | t1 :: _ => g_set "fcn" (GStr (strip_by (fun c => is_comma c
                                         || (c =? " ")%char) t1))
              | [] => raise IndexError
              end
            else mret tt) ;;
      let n := (asmline s2 + 1)%Z in
      ps <- process_tokens tokens ;;
      mret (false, mkSt (markup s2 ++ [PLineOpen; PLineNo n] ++ ps ++ [PLineClose])
                        (block_is_open s2) (colors s2) (blocknum s2) n)
  end.

Fixpoint loop (s : st) (asm : list string) : M (bool * st) :=
  match asm with
  | [] => mret (false, s)
  | line :: rest =>
      r <- step s line ;;
      let '(brk, s') := r in
      if brk then mret (true, s') else loop s' rest
  end.

Definition process_asm (asm : list string) : M (list piece * gmap Z Z) :=
  _ <- g_set "fnc" GNone ;;
  r <- loop init_st asm ;;
  let s := snd r in
  mret (markup s ++ [PEnd], colors s).

(* ------------------------------------------------------------------ *)
(** ** [format_c] *)

(** One [src-line] div: its 1-based line number [l] (shown in the
    [c-no] div), the colour of [" loc color-N"] when [l in colors], and
    the highlighted text of the line. *)
Inductive src_piece :=
  | SrcLine (l : Z) (color : option Z) (hl : string).

Section FormatC.

(** [highlight(line, srclexer, srcfmtr)] (pygments) *)
Variable highlight : string -> string.

(** The loop [for i, line in enumerate(c)], from index [i]. *)
Fixpoint format_c_lines (colors : gmap Z Z) (i : nat) (c : list string) : list src_piece :=
  match c with
  | [] => []
  | line :: rest =>
      let l := (Z.of_nat i + 1)%Z in
      SrcLine l (colors !! l) (highlight line) :: format_c_lines colors (S i) rest
  end.

(** [format_c(c, colors)]; the default [colors=[]] contains no line
    number, as the empty map. *)
Definition format_c (c : option (list string)) (colors : gmap Z Z) : option (list src_piece) :=
  match c with
  | None => None
  | Some c => Some (format_c_lines colors 0 c)
  end.

End FormatC.

(* ================================================================== *)
(** * Properties *)

(* ------------------------------------------------------------------ *)
(** ** Tokenizer *)

Lemma split_runs_aux_nonempty p s cur b : split_runs_aux p s cur b <> [].
Proof.
  revert cur b; induction s as [|c s IH]; intros cur b; simpl.
  - discriminate.
  - destruct (p c); [destruct b|]; [apply IH|discriminate|apply IH].
Qed.

Lemma split_char_nonempty sep s : split_char sep s <> [].
Proof.
  induction s as [|c s IH]; simpl; [discriminate|].
  destruct (c =? sep)%char; [discriminate|].
  destruct (split_char sep s); discriminate.
Qed.

Lemma split_char_two sep s :
  has_char sep s = true ->
  exists a b rest, split_char sep s = a :: b :: rest.
Proof.
  induction s as [|c s IH]; simpl; [discriminate|].
  intros H. destruct (c =? sep)%char eqn:E.
  - destruct (split_char sep s) as [|b rest] eqn:Es.
    + exfalso; eapply split_char_nonempty; eauto.
    + eauto.
  - simpl in H. destruct (IH H) as (a & b & rest & ->). eauto.
Qed.

(** C5: the comment is dropped and the quoted string stays one token. *)
Example tokenize_string_directive :
  tokenize (".string " +:+ str1 quote_char +:+ "a, b" +:+ str1 quote_char +:+ " # x")
  = [".string"; str1 quote_char +:+ "a, b" +:+ str1 quote_char].
Proof. reflexivity. Qed.

(** C10: [tokenize] never returns the empty list, on either branch. *)
Theorem tokenize_nonempty (line : string) : tokenize line <> [].
Proof.
  unfold tokenize.
  set (l := py_strip (hd EmptyString (split_char hash_char line))).
  destruct (has_char quote_char l) eqn:Hq; simpl.
  - destruct (split_char_two _ _ Hq) as (a & b & rest & ->).
    simpl. intros H. apply app_eq_nil in H as [_ H]. discriminate.
  - apply split_runs_aux_nonempty.
Qed.

(* ------------------------------------------------------------------ *)
(** ** Directive classification *)

(** Markup of a kept line: the line number, then the tokens. *)
Definition emitted (s : st) (ps : list piece) : st :=
  mkSt (markup s ++ [PLineOpen; PLineNo (asmline s + 1)%Z] ++ ps ++ [PLineClose])
    (block_is_open s) (colors s) (blocknum s) (asmline s + 1)%Z.

Definition w_demo : world :=
  mkWorld (<["locs" := GLocs (<["main" := ∅]> ∅)]> ∅)
    (<["mov" := mkEntry "Move" "src, dst" "Copy src to dst" "none" [0%Z; 0%Z]]> ∅).

(** C1 (counterexample): [.globl main] is not suppressed: it is printed
    as line 1, so the output differs from that of an empty listing. *)
Lemma globl_not_suppressed :
  fst (process_asm [".globl main"] w_demo)
  = Ok ([PHeaderOpen; PCloseLoc; PLineOpen; PLineNo 1;
          wrap_token ".globl" "asm-token asm-directive";
          wrap_token "main" "asm-token"; PLineClose; PEnd], ∅)
  /\ fst (process_asm [".globl main"] w_demo) <> fst (process_asm [] w_demo).
Proof. split; [reflexivity | vm_compute; congruence]. Qed.

(** C1 (amended): both [.globl main] and [.section .text] are whitelisted
    directives: from any state the line is kept, any open group is
    closed first, and the world is untouched. *)
Theorem globl_section_kept (s : st) (w : world) :
  step s ".globl main" w
  = (Ok (false, emitted (close_block s)
                  [wrap_token ".globl" "asm-token asm-directive";
                   wrap_token "main" "asm-token"]), w)
  /\ step s ".section .text" w
  = (Ok (false, emitted (close_block s)
                  [wrap_token ".section" "asm-token asm-directive";
                   wrap_token ".text" "asm-token"]), w).
Proof.
  destruct s as [m [|] cs bn n]; split; reflexivity.
Qed.

(* ------------------------------------------------------------------ *)
(** ** Mnemonic resolution *)

Definition mov_demo : entry :=
  mkEntry "Move" "src, dst" "Copy src to dst" "none" [0%Z; 0%Z].

(** C2 (failing input): the first suffixed lookup overwrites the shared
    entry of [mov]; a later [movl] in the same run then shows the sizes
    of [movq] ([8], not [4]). *)
Lemma movq_then_movl_leaks :
  fst (process_asm [".type main, @function"; "movq %rax, %rbx";
                    "movl %eax, %ebx"] w_demo)
  = Ok ([PHeaderOpen; PCloseLoc;
         PLineOpen; PLineNo 1; wrap_token ".type" "asm-token asm-directive";
         wrap_token "main" "asm-token"; wrap_token "@function" "asm-token";
         PLineClose;
         PLineOpen; PLineNo 2;
         PMnemonic "movq" (mkEntry "Move" "src, dst" "Copy src to dst" "none" [8%Z; 8%Z]);
         PWrap "asm-token asm-operand" (COperand "%rax" None);
         PWrap "asm-token asm-operand" (COperand "%rbx" None); PLineClose;
         PLineOpen; PLineNo 3;
         PMnemonic "movl" (mkEntry "Move" "src, dst" "Copy src to dst" "none" [8%Z; 8%Z]);
         PWrap "asm-token asm-operand" (COperand "%eax" None);
         PWrap "asm-token asm-operand" (COperand "%ebx" None); PLineClose;
         PEnd], ∅).
Proof. vm_compute. reflexivity. Qed.

Lemma append_str1_nonempty s c : s +:+ str1 c <> EmptyString.
Proof. destruct s; discriminate. Qed.

Lemma rev_str_empty s : rev_str s = EmptyString -> s = EmptyString.
Proof.
  destruct s as [|c s]; simpl; [auto|].
  intros H. exfalso. exact (append_str1_nonempty _ _ H).
Qed.

Lemma last_char_none s : last_char s = None -> s = EmptyString.
Proof.
  unfold last_char. destruct (rev_str s) eqn:E; [|discriminate].
  intros _. apply rev_str_empty. exact E.
Qed.

(** C9: a mnemonic that is neither in [ref] nor a base of [ref] with a
    size suffix gets the plain wrapping, raises nothing, and leaves the
    table unchanged. *)
Theorem handle_mnemonic_unknown (token cl : string) (w : world) :
  w_ref w !! token = None ->
  ~ (exists e c, w_ref w !! drop_last token = Some e /\
                 last_char token = Some c /\ sizes c <> None) ->
  handle_mnemonic token cl w = (Ok (wrap_token token cl), w).
Proof.
  intros Htok Hdec. unfold handle_mnemonic, mbind, get_ref.
  rewrite Htok.
  destruct (w_ref w !! drop_last token) as [e|] eqn:Hb; [|reflexivity].
  destruct (last_char token) as [c|] eqn:Hc.
  - destruct (sizes c) eqn:Hs; [|reflexivity].
    exfalso. apply Hdec. exists e, c. rewrite Hs. split; [reflexivity|]. split; [reflexivity|discriminate].
  - apply last_char_none in Hc. subst token.
    change (drop_last EmptyString) with EmptyString in Hb. congruence.
Qed.

Lemma handle_mnemonic_unknown_witness :
  w_ref w_demo !! "frob" = None /\
  ~ (exists e c, w_ref w_demo !! drop_last "frob" = Some e /\
                 last_char "frob" = Some c /\ sizes c <> None) /\
  handle_mnemonic "frob" "asm-token asm-mnemonic" w_demo
  = (Ok (wrap_token "frob" "asm-token asm-mnemonic"), w_demo).
Proof.
  assert (H1 : w_ref w_demo !! "frob" = None) by reflexivity.
  assert (H2 : ~ (exists e c, w_ref w_demo !! drop_last "frob" = Some e /\
                 last_char "frob" = Some c /\ sizes c <> None)).
  { intros (e & c & He & _). vm_compute in He. discriminate. }
  split; [exact H1|]. split; [exact H2|].
  apply (handle_mnemonic_unknown "frob" "asm-token asm-mnemonic" w_demo H1 H2).
Defined.

(* ------------------------------------------------------------------ *)
(** ** Monad and loop plumbing *)

Lemma bind_inv {A B} (m : M A) (k : A -> M B) w b w' :
  mbind m k w = (Ok b, w') ->
  exists a w1, m w = (Ok a, w1) /\ k a w1 = (Ok b, w').
Proof.
  unfold mbind. destruct (m w) as [[a|e] w1]; intros H; [eauto|discriminate].
Qed.

Ltac bind_ok H :=
  let a := fresh "a" in let w1 := fresh "w" in let Hm := fresh "Hm" in
  apply bind_inv in H; destruct H as (a & w1 & Hm & H).

Lemma mret_inv {A} (a b : A) w w' : mret a w = (Ok b, w') -> a = b /\ w = w'.
Proof. unfold mret. intros H. inversion H. auto. Qed.

Lemma raise_inv {A} e (b : A) w w' : raise e w = (Ok b, w') -> False.
Proof. unfold raise. discriminate. Qed.

Lemma lift_inv {A} (r : result A) a w w' : lift r w = (Ok a, w') -> r = Ok a /\ w = w'.
Proof.
  destruct r; simpl; [intros H; apply mret_inv in H as [-> ->]; auto|].
  intros H; apply raise_inv in H; contradiction.
Qed.

Lemma close_block_colors s :
  colors (close_block s) = colors s /\ blocknum (close_block s) = blocknum s.
Proof. unfold close_block. destruct (block_is_open s); auto. Qed.

Lemma loop_app s pre rest w :
  loop s (pre ++ rest) w =
  match loop s pre w with
  | (Ok (false, s'), w') => loop s' rest w'
  | r => r
  end.
Proof.
  revert s w; induction pre as [|l pre IH]; intros s w; simpl.
  - reflexivity.
  - unfold mbind. destruct (step s l w) as [[[[|] s1]|e] w1]; simpl.
    + reflexivity.
    + apply IH.
    + reflexivity.
Qed.

(** The tests [process_asm] makes before its [.debug] test all let the
    line through to it. *)
Definition debug_cut (t0 t1 : string) : bool :=
  negb (String.eqb t0 "") && negb (String.eqb t0 ".loc")
  && negb (startswith "." t0 && negb (endswith ":" t0) && negb (mem_str t0 whitelist))
  && negb (endswith ":" t0 && badlabel_match t0)
  && contains ".debug" t1.

(** A line of the listing on which the loop of [process_asm] breaks:
    its first two tokens pass every test before the [.debug] one. *)
Definition line_cut (line : string) : bool :=
  match tokenize (prep_line line) with
  | t0 :: t1 :: _ => debug_cut t0 t1
  | _ => false
  end.

(** The part of the listing the loop of [process_asm] goes through: up
    to and including the first line on which it breaks. *)
Fixpoint processed (asm : list string) : list string :=
  match asm with
  | [] => []
  | line :: rest => if line_cut line then [line] else line :: processed rest
  end.

Lemma step_break s line w b s' w' :
  step s line w = (Ok (b, s'), w') -> b = line_cut line.
Proof.
  unfold step, line_cut. intros H.
  destruct (tokenize (prep_line line)) as [|t0 trest] eqn:Ht.
  { apply raise_inv in H; contradiction. }
  unfold debug_cut.
  destruct (String.eqb t0 "") eqn:E0.
  { apply mret_inv in H as [H _]. inversion H. destruct trest; reflexivity. }
  destruct (String.eqb t0 ".loc") eqn:E1.
  { bind_ok H. bind_ok H.
    destruct (assign_color (colors s) (blocknum s) a0) as [cs bn].
    destruct (cs !! a0); [|apply raise_inv in H; contradiction].
    apply mret_inv in H as [H _]. inversion H. destruct trest; reflexivity. }
  cbv zeta.
  destruct (startswith "." t0 && negb (endswith ":" t0) && negb (mem_str t0 whitelist)).
  { apply mret_inv in H as [H _]. inversion H. destruct trest; reflexivity. }
  destruct (endswith ":" t0 && badlabel_match t0).
  { apply mret_inv in H as [H _]. inversion H. destruct trest; reflexivity. }
  destruct trest as [|t1 ts].
  - bind_ok H. bind_ok H. apply mret_inv in H as [H _]. inversion H. reflexivity.
  - simpl. destruct (contains ".debug" t1).
    + apply mret_inv in H as [H _]. inversion H. reflexivity.
    + bind_ok H. bind_ok H. apply mret_inv in H as [H _]. inversion H. reflexivity.
Qed.

(* ------------------------------------------------------------------ *)
(** ** Colour assignment *)

(** The line number a [.loc] line carries, when [step] accepts it. *)
Definition loc_number (line : string) : option Z :=
  let tokens := tokenize (prep_line line) in
  match tokens with
  | t0 :: _ =>
      if String.eqb t0 "" then None
      else if String.eqb t0 ".loc" then
        match nth_error tokens 2 with
        | Some c => match py_int c with Ok z => Some z | Err _ => None end
        | None => None
        end
      else None
  | [] => None
  end.

Fixpoint loc_numbers (lines : list string) : list Z :=
  match lines with
  | [] => []
  | l :: rest =>
      match loc_number l with
      | Some z => z :: loc_numbers rest
      | None => loc_numbers rest
      end
  end.

Definition assign_colors (cs : gmap Z Z) (bn : Z) (ls : list Z) : gmap Z Z * Z :=
  fold_left (fun acc c => assign_color acc.1 acc.2 c) ls (cs, bn).

(** Distinct line numbers in the order they are first seen. *)
Definition first_seen (ls : list Z) : list Z :=
  fold_left (fun acc c => if decide (c ∈ acc) then acc else acc ++ [c]) ls [].

Lemma step_colors s line w b s' w' :
  step s line w = (Ok (b, s'), w') ->
  (colors s', blocknum s') =
  assign_colors (colors s) (blocknum s)
    (match loc_number line with Some z => [z] | None => [] end).
Proof.
  unfold step, loc_number. intros H.
  destruct (tokenize (prep_line line)) as [|t0 trest] eqn:Ht.
  { apply raise_inv in H; contradiction. }
  destruct (String.eqb t0 "") eqn:E0.
  { apply mret_inv in H as [H _]. inversion H. subst. reflexivity. }
  destruct (String.eqb t0 ".loc") eqn:E1.
  - bind_ok H. apply lift_inv in Hm as [Hn ->].
    destruct (nth_error (t0 :: trest) 2) as [c|] eqn:Ec; [|discriminate].
    inversion Hn; subst a. bind_ok H. apply lift_inv in Hm as [Hz ->].
    rewrite Hz. unfold assign_colors; simpl.
    destruct (assign_color (colors s) (blocknum s) a) as [cs bn] eqn:Ea.
    destruct (cs !! a) as [col|]; [|apply raise_inv in H; contradiction].
    apply mret_inv in H as [H _]. inversion H; subst. reflexivity.
  - cut (colors s' = colors s /\ blocknum s' = blocknum s).
    { intros [-> ->]. reflexivity. }
    assert (Hs1 : forall s1, s1 = (if startswith "." t0 then close_block s else s) ->
                  colors s1 = colors s /\ blocknum s1 = blocknum s).
    { intros s1 ->. destruct (startswith "." t0); auto using close_block_colors. }
    assert (Hs2 : forall s1 s2, colors s1 = colors s /\ blocknum s1 = blocknum s ->
                  s2 = (if endswith ":" t0 then close_block s1 else s1) ->
                  colors s2 = colors s /\ blocknum s2 = blocknum s).
    { intros s1 s2 [<- <-] ->. destruct (endswith ":" t0); auto using close_block_colors. }
    destruct (startswith "." t0 && negb (endswith ":" t0)
              && negb (mem_str t0 whitelist)).
    { apply mret_inv in H as [H _]. inversion H. auto. }
    destruct (endswith ":" t0 && badlabel_match t0).
    { apply mret_inv in H as [H _]. inversion H. subst. auto. }
    destruct (match trest with t1 :: _ => contains ".debug" t1 | [] => false end).
    { apply mret_inv in H as [H _]. inversion H. subst. eauto. }
    bind_ok H. bind_ok H. apply mret_inv in H as [H _]. inversion H. subst. simpl. eauto.
Qed.

Lemma assign_colors_app cs bn l1 l2 :
  assign_colors cs bn (l1 ++ l2) =
  let '(cs', bn') := assign_colors cs bn l1 in assign_colors cs' bn' l2.
Proof.
  unfold assign_colors. rewrite fold_left_app.
  destruct (fold_left _ l1 (cs, bn)). reflexivity.
Qed.

Lemma loop_colors s asm w b s' w' :
  loop s asm w = (Ok (b, s'), w') ->
  exists pre, pre `prefix_of` asm /\
    (colors s', blocknum s') = assign_colors (colors s) (blocknum s) (loc_numbers pre).
Proof.
  revert s w; induction asm as [|l rest IH]; intros s w H; simpl in H.
  - apply mret_inv in H as [H _]. inversion H; subst. exists []. split; [|reflexivity].
    apply prefix_nil.
  - bind_ok H. destruct a as [brk s1].
    pose proof (step_colors _ _ _ _ _ _ Hm) as Hc.
    destruct brk.
    + apply mret_inv in H as [H _]. inversion H; subst.
      exists [l]. split; [apply prefix_cons, prefix_nil|].
      simpl. rewrite Hc. destruct (loc_number l); reflexivity.
    + destruct (IH _ _ H) as (pre & Hpre & Hcs).
      exists (l :: pre). split; [by apply prefix_cons|].
      rewrite Hcs.
      replace (loc_numbers (l :: pre)) with
        ((match loc_number l with Some z => [z] | None => [] end) ++ loc_numbers pre)
        by (simpl; destruct (loc_number l); reflexivity).
      rewrite assign_colors_app, <- Hc. reflexivity.
Qed.

Lemma loop_colors_processed s asm w b s' w' :
  loop s asm w = (Ok (b, s'), w') ->
  (colors s', blocknum s') = assign_colors (colors s) (blocknum s) (loc_numbers (processed asm)).
Proof.
  revert s w; induction asm as [|l rest IH]; intros s w H; simpl in H.
  - apply mret_inv in H as [H _]. inversion H; subst. reflexivity.
  - bind_ok H. destruct a as [brk s1].
    pose proof (step_colors _ _ _ _ _ _ Hm) as Hc.
    pose proof (step_break _ _ _ _ _ _ Hm) as Hb.
    simpl processed. rewrite <- Hb. destruct brk.
    + apply mret_inv in H as [H _]. inversion H; subst.
      simpl. rewrite Hc. destruct (loc_number l); reflexivity.
    + rewrite (IH _ _ H).
      replace (loc_numbers (l :: processed rest)) with
        ((match loc_number l with Some z => [z] | None => [] end) ++ loc_numbers (processed rest))
        by (simpl; destruct (loc_number l); reflexivity).
      rewrite assign_colors_app, <- Hc. reflexivity.
Qed.

(** Invariant of the colour map against the first-seen order [fs]. *)
Definition color_inv (cb : gmap Z Z * Z) (fs : list Z) : Prop :=
  cb.2 = Z.of_nat (length fs) /\ NoDup fs /\
  (forall l, is_Some (cb.1 !! l) <-> l ∈ fs) /\
  (forall k l, fs !! k = Some l -> cb.1 !! l = Some (Z.of_nat k mod ncolors + 1)%Z).

Lemma color_inv_step cs bn fs c :
  color_inv (cs, bn) fs ->
  color_inv (assign_color cs bn c) (if decide (c ∈ fs) then fs else fs ++ [c]).
Proof.
  intros (Hbn & Hnd & Hdom & Hk); simpl in *. unfold assign_color.
  destruct (cs !! c) as [v|] eqn:Ec.
  - assert (Hc : c ∈ fs) by (apply Hdom; eauto).
    rewrite decide_True by exact Hc. exact (conj Hbn (conj Hnd (conj Hdom Hk))).
  - assert (Hc : c ∉ fs) by (intros Hin; apply Hdom in Hin; rewrite Ec in Hin;
                             destruct Hin; discriminate).
    rewrite decide_False by exact Hc. unfold color_inv; simpl. repeat split.
    + rewrite length_app. simpl. lia.
    + apply NoDup_app. split; [exact Hnd|]. split.
      * intros x Hx Hx'. apply list_elem_of_singleton in Hx'. subst. contradiction.
      * apply NoDup_singleton.
    + intros Hs. apply lookup_insert_is_Some' in Hs as [->|Hs].
      * apply elem_of_app. right. apply list_elem_of_singleton. reflexivity.
      * apply elem_of_app. left. apply Hdom. exact Hs.
    + intros Hs. apply lookup_insert_is_Some'.
      apply elem_of_app in Hs as [Hs|Hs].
      * right. apply Hdom. exact Hs.
      * left. apply list_elem_of_singleton in Hs. auto.
    + intros k l Hl. apply lookup_snoc_Some in Hl as [[Hlt Hl]|[-> ->]].
      * assert (Hne : c <> l).
        { intros <-. apply Hc. eapply list_elem_of_lookup_2. exact Hl. }
        rewrite lookup_insert_ne by exact Hne. apply Hk. exact Hl.
      * rewrite lookup_insert_eq. rewrite Hbn. reflexivity.
Qed.

Lemma color_inv_fold ls cb fs :
  color_inv cb fs ->
  color_inv (fold_left (fun acc c => assign_color acc.1 acc.2 c) ls cb)
            (fold_left (fun acc c => if decide (c ∈ acc) then acc else acc ++ [c]) ls fs).
Proof.
  revert cb fs; induction ls as [|c ls IH]; intros [cs bn] fs H; simpl; [exact H|].
  apply IH. apply color_inv_step. exact H.
Qed.

Lemma color_inv_assign_colors ls :
  color_inv (assign_colors ∅ 0 ls) (first_seen ls).
Proof.
  apply color_inv_fold. unfold color_inv; simpl. repeat split.
  - constructor.
  - intros [v Hv]. rewrite lookup_empty in Hv. discriminate.
  - intros Hl. inversion Hl.
  - intros k l Hl. rewrite lookup_nil in Hl. discriminate.
Qed.

Lemma process_asm_colors asm w m cs w' :
  process_asm asm w = (Ok (m, cs), w') ->
  exists pre bn, pre `prefix_of` asm /\ assign_colors ∅ 0 (loc_numbers pre) = (cs, bn).
Proof.
  unfold process_asm. intros H. bind_ok H. bind_ok H. destruct a0 as [brk s].
  apply mret_inv in H as [H _]. inversion H; subst.
  destruct (loop_colors _ _ _ _ _ _ Hm0) as (pre & Hpre & Hc).
  exists pre, (blocknum s). split; [exact Hpre|]. change (assign_colors (colors init_st) (blocknum init_st) (loc_numbers pre) = (colors s, blocknum s)). rewrite <- Hc. reflexivity.
Qed.

Lemma process_asm_colors_processed asm w m cs w' :
  process_asm asm w = (Ok (m, cs), w') ->
  exists bn, assign_colors ∅ 0 (loc_numbers (processed asm)) = (cs, bn).
Proof.
  unfold process_asm. intros H. bind_ok H. bind_ok H. destruct a0 as [brk s].
  apply mret_inv in H as [H _]. inversion H; subst.
  exists (blocknum s).
  change (assign_colors (colors init_st) (blocknum init_st) (loc_numbers (processed asm))
          = (colors s, blocknum s)).
  symmetry. eapply loop_colors_processed. exact Hm0.
Qed.

Lemma color_bounds (k : nat) : (1 <= Z.of_nat k mod ncolors + 1 <= ncolors)%Z.
Proof.
  unfold ncolors. pose proof (Z.mod_pos_bound (Z.of_nat k) 5 ltac:(lia)). lia.
Qed.

(** C4: over one run of [process_asm], the line numbers met in [.loc]
    lines of the processed part of the listing ([processed asm]: all of
    it, or up to the line on which the loop breaks at a debug section),
    taken in first-seen order, get colours
    round robin: the distinct line number of 0-based index [k] (the
    [k+1]-th one seen) has colour [k mod ncolors + 1], and no other line
    number has a colour. *)
Theorem colors_round_robin (asm : list string) (w : world) m cs w' :
  process_asm asm w = (Ok (m, cs), w') ->
  (forall (k : nat) (l : Z), first_seen (loc_numbers (processed asm)) !! k = Some l ->
     cs !! l = Some (Z.of_nat k mod ncolors + 1)%Z) /\
  (forall l, is_Some (cs !! l) <-> l ∈ first_seen (loc_numbers (processed asm))).
Proof.
  intros H. destruct (process_asm_colors_processed _ _ _ _ _ H) as (bn & Hc).
  pose proof (color_inv_assign_colors (loc_numbers (processed asm))) as (_ & _ & Hdom & Hk).
  rewrite Hc in Hdom, Hk. simpl in *. split; [exact Hk | exact Hdom].
Qed.

Definition loc_demo : list string :=
  [" .loc 1 3 0"; " ret"; " .loc 1 4 0"; " .loc 1 3 0"; " .loc 1 9 0";
   " .loc 1 5 0"; " .loc 1 6 0"; " .loc 1 7 0"; " .loc 1 4 0"; " .loc 1 8 0"].

Lemma colors_round_robin_witness :
  exists m cs w', process_asm loc_demo w_demo = (Ok (m, cs), w') /\
  cs !! 8%Z = Some 2%Z /\
  (forall (k : nat) (l : Z), first_seen (loc_numbers (processed loc_demo)) !! k = Some l ->
     cs !! l = Some (Z.of_nat k mod ncolors + 1)%Z) /\
  (forall l, is_Some (cs !! l) <-> l ∈ first_seen (loc_numbers (processed loc_demo))).
Proof.
  do 3 eexists. split; [vm_compute; reflexivity|].
  split; [vm_compute; reflexivity|].
  eapply (colors_round_robin loc_demo w_demo). vm_compute. reflexivity.
Defined.

(** C8: a step of the loop never changes the colour of a line number
    already in the map (in particular a [.loc] line naming a known line
    number), and every colour of the map returned by [process_asm] lies
    in [1, ncolors]. *)
Theorem colors_stable_bounded :
  (forall s line w b s' w', step s line w = (Ok (b, s'), w') ->
     forall l c, colors s !! l = Some c -> colors s' !! l = Some c) /\
  (forall asm w m cs w', process_asm asm w = (Ok (m, cs), w') ->
     map_Forall (fun _ c => 1 <= c <= ncolors)%Z cs).
Proof.
  split.
  - intros s line w b s' w' H l c Hl.
    pose proof (step_colors _ _ _ _ _ _ H) as Hc.
    destruct (loc_number line) as [z|]; unfold assign_colors in Hc; simpl in Hc.
    + unfold assign_color in Hc. destruct (colors s !! z) eqn:Ez.
      * inversion Hc as [[Hcs Hbn]]. rewrite Hcs. exact Hl.
      * inversion Hc as [[Hcs Hbn]]. rewrite Hcs.
        rewrite lookup_insert_ne by congruence. exact Hl.
    + inversion Hc as [[Hcs Hbn]]. rewrite Hcs. exact Hl.
  - intros asm w m cs w' H l c Hl.
    destruct (process_asm_colors _ _ _ _ _ H) as (pre & bn & _ & Hc).
    pose proof (color_inv_assign_colors (loc_numbers pre)) as (_ & _ & Hdom & Hk).
    rewrite Hc in Hdom, Hk. simpl in *.
    assert (Hin : l ∈ first_seen (loc_numbers pre)) by (apply Hdom; eauto).
    apply list_elem_of_lookup in Hin as [k Hkl].
    rewrite (Hk _ _ Hkl) in Hl. inversion Hl; subst. apply color_bounds.
Qed.

(* ------------------------------------------------------------------ *)
(** ** Labels and the debug-section cutoff *)

Lemma close_block_idem s : close_block (close_block s) = close_block s.
Proof. destruct s as [m [|] cs bn n]; reflexivity. Qed.

Lemma endswith_empty suf : endswith suf "" = true -> suf = "".
Proof.
  unfold endswith. simpl. destruct suf as [|c suf]; [auto|].
  simpl. destruct (rev_str suf +:+ str1 c) eqn:E; [|discriminate].
  exfalso. exact (append_str1_nonempty _ _ E).
Qed.

(** C7 (counterexample): [main:] followed by a [.debug] token is not
    emitted: the run only closes the header group and stops. *)
Lemma main_label_debug_not_emitted :
  fst (process_asm ["main: .debug_info"] w_demo)
  = Ok ([PHeaderOpen; PCloseLoc; PEnd], ∅).
Proof. reflexivity. Qed.

(** C7 (amended): a label matching [badlabel] is dropped (the state is
    left as is, except that a label starting with [.] closes an open
    group, as every dot-prefixed first token does); a label not matching
    it closes any open group and is emitted as a label token, unless the
    second token of its line contains [.debug]: then the group is closed
    and processing stops. *)
Theorem label_handling (s : st) (line : string) (w : world) t0 trest :
  tokenize (prep_line line) = t0 :: trest ->
  endswith ":" t0 = true ->
  (badlabel_match t0 = true ->
     step s line w = (Ok (false, if startswith "." t0 then close_block s else s), w)) /\
  (badlabel_match t0 = false ->
     match trest with t1 :: _ => contains ".debug" t1 | [] => false end = false ->
     exists w', step s line w =
       (Ok (false, emitted (close_block s) [wrap_token t0 "asm-token asm-label"]), w')) /\
  (badlabel_match t0 = false ->
     match trest with t1 :: _ => contains ".debug" t1 | [] => false end = true ->
     step s line w = (Ok (true, close_block s), w)).
Proof.
  intros Ht He.
  assert (E0 : String.eqb t0 "" = false).
  { apply String.eqb_neq. intros ->. discriminate. }
  assert (E1 : String.eqb t0 ".loc" = false).
  { apply String.eqb_neq. intros ->. discriminate. }
  assert (Hs2 : (if endswith ":" t0 then close_block
                   (if startswith "." t0 then close_block s else s)
                 else (if startswith "." t0 then close_block s else s))
                = close_block s).
  { rewrite He. destruct (startswith "." t0); [apply close_block_idem|reflexivity]. }
  unfold step. rewrite Ht, E0, E1. rewrite He. simpl negb.
  rewrite !andb_false_r. cbv zeta.
  split; [|split].
  - intros Hb. rewrite Hb. reflexivity.
  - intros Hb Hd. rewrite Hb. simpl andb. cbv iota. rewrite Hd.
    rewrite He in Hs2. rewrite Hs2.
    assert (Hrep : String.eqb t0 "rep" = false).
    { apply String.eqb_neq. intros ->. discriminate. }
    assert (Hpt : forall w0, process_tokens (t0 :: trest) w0 =
                  (Ok [wrap_token t0 "asm-token asm-label"], w0)).
    { intros w0. unfold process_tokens, merge_rep, mbind, lift.
      rewrite Hrep. simpl. rewrite He. reflexivity. }
    destruct (mem_str "@function" (t0 :: trest)) eqn:Hf.
    + destruct trest as [|t1 ts].
      * unfold mem_str in Hf. cbn [existsb] in Hf. rewrite orb_false_r in Hf.
        apply String.eqb_eq in Hf. subst t0. vm_compute in He. discriminate.
      * eexists. unfold mbind, g_set. cbn [andb negb]. cbv beta iota.
        rewrite Hpt. reflexivity.
    + exists w. unfold mbind. cbn [andb negb]. cbv beta iota.
      unfold mret at 1. cbv beta iota. rewrite Hpt. reflexivity.
  - intros Hb Hd. rewrite Hb. simpl andb. cbv iota. rewrite Hd.
    rewrite He in Hs2. rewrite Hs2. reflexivity.
Qed.

Lemma label_handling_witness :
  tokenize (prep_line "main:") = ["main:"] /\ endswith ":" "main:" = true /\
  exists w', step init_st "main:" w_demo =
    (Ok (false, emitted (close_block init_st) [wrap_token "main:" "asm-token asm-label"]), w').
Proof.
  split; [reflexivity|]. split; [reflexivity|].
  apply (proj1 (proj2 (label_handling init_st "main:" w_demo "main:" []
                         eq_refl eq_refl)) eq_refl eq_refl).
Defined.

(** What such a line does to the state before [break]. *)
Definition cut_state (s : st) (t0 : string) : st :=
  if startswith "." t0 || endswith ":" t0 then close_block s else s.

Lemma step_debug_cut s line w t0 t1 ts :
  tokenize (prep_line line) = t0 :: t1 :: ts ->
  debug_cut t0 t1 = true ->
  step s line w = (Ok (true, cut_state s t0), w).
Proof.
  intros Ht Hc. unfold debug_cut in Hc.
  apply andb_prop in Hc as [Hc Hd]. apply andb_prop in Hc as [Hc Hl].
  apply andb_prop in Hc as [Hc Hdir]. apply andb_prop in Hc as [E0 E1].
  apply negb_true_iff in E0, E1, Hdir, Hl.
  unfold step. rewrite Ht, E0, E1, Hdir. cbv iota zeta.
  rewrite Hl. cbv iota. rewrite Hd. unfold mret. f_equal. f_equal. f_equal.
  unfold cut_state.
  destruct (startswith "." t0), (endswith ":" t0); cbv iota;
    simpl orb; cbv iota; auto using close_block_idem.
Qed.

(** C6 (counterexample): the non-whitelisted directive [.text .debug_info]
    is dropped by the directive filter before the [.debug] test, so the
    next line [main:] is still processed and printed. *)
Lemma debug_directive_not_cut :
  fst (process_asm [".text .debug_info"; "main:"] w_demo)
  = Ok ([PHeaderOpen; PCloseLoc; PLineOpen; PLineNo 1;
         wrap_token "main:" "asm-token asm-label"; PLineClose; PEnd], ∅)
  /\ fst (process_asm [".text .debug_info"; "main:"] w_demo)
     <> fst (process_asm [] w_demo).
Proof. split; [reflexivity | vm_compute; congruence]. Qed.

Lemma loop_processed s asm w : loop s asm w = loop s (processed asm) w.
Proof.
  revert s w; induction asm as [|l rest IH]; intros s w; [reflexivity|].
  simpl. destruct (line_cut l) eqn:Ec.
  - simpl. unfold mbind. destruct (step s l w) as [[[b s1]|e] w1] eqn:Es; [|reflexivity].
    rewrite (step_break _ _ _ _ _ _ Es), Ec. reflexivity.
  - simpl. unfold mbind. destruct (step s l w) as [[[b s1]|e] w1] eqn:Es; [|reflexivity].
    rewrite (step_break _ _ _ _ _ _ Es), Ec. apply IH.
Qed.

(** C6 (amended): a line whose second token contains [.debug] and that
    reaches the [.debug] test (not blank, not [.loc], not a suppressed
    directive, not a suppressed label; [debug_cut]) stops the run: the
    result does not depend on the lines after it, and the line itself
    adds no line of output, only the close of the open group when its
    first token starts with [.] or ends with [:]. Only such lines stop
    the run: a step breaks exactly on a line satisfying [line_cut], so
    every other line, blank, [.loc], suppressed directive or label with
    [.debug] in its second token included, lets processing go on; and
    the result of a run is that of the listing up to and including the
    first such line. *)
Theorem debug_section_stops :
  (forall (pre : list string) (line : string) (rest : list string) (w : world) s w1 t0 t1 ts,
     loop init_st pre (mkWorld (<["fnc" := GNone]> (w_g w)) (w_ref w))
       = (Ok (false, s), w1) ->
     tokenize (prep_line line) = t0 :: t1 :: ts ->
     debug_cut t0 t1 = true ->
     process_asm (pre ++ line :: rest) w
       = (Ok (markup (cut_state s t0) ++ [PEnd], colors (cut_state s t0)), w1)) /\
  (forall s line w b s' w', step s line w = (Ok (b, s'), w') -> b = line_cut line) /\
  (forall asm w, process_asm asm w = process_asm (processed asm) w).
Proof.
  split; [|split].
  - intros pre line rest w s w1 t0 t1 ts Hpre Ht Hc.
    unfold process_asm, g_set, mbind. cbv beta iota.
    rewrite loop_app, Hpre. simpl loop. unfold mbind.
    rewrite (step_debug_cut _ _ _ _ _ _ Ht Hc). reflexivity.
  - exact step_break.
  - intros asm w. unfold process_asm, g_set, mbind. cbv beta iota.
    rewrite loop_processed. reflexivity.
Qed.

Lemma debug_section_stops_witness :
  process_asm ["main:"; ".section .debug_info"; "movl %eax, %ebx"] w_demo
  = (Ok ([PHeaderOpen; PCloseLoc; PLineOpen; PLineNo 1;
          wrap_token "main:" "asm-token asm-label"; PLineClose; PEnd], ∅),
     mkWorld (<["fnc" := GNone]> (w_g w_demo)) (w_ref w_demo)) /\
  (forall b s' w', step init_st ".text .debug_info" w_demo = (Ok (b, s'), w') -> b = false) /\
  process_asm ["main:"; ".section .debug_info"; "movl %eax, %ebx"] w_demo
  = process_asm ["main:"; ".section .debug_info"] w_demo.
Proof.
  split; [|split].
  - refine (eq_trans (proj1 debug_section_stops ["main:"] ".section .debug_info"
      ["movl %eax, %ebx"] w_demo
      (emitted (close_block init_st) [wrap_token "main:" "asm-token asm-label"])
      (mkWorld (<["fnc" := GNone]> (w_g w_demo)) (w_ref w_demo))
      ".section" ".debug_info" [] _ _ _) _).
    + vm_compute. reflexivity.
    + vm_compute. reflexivity.
    + vm_compute. reflexivity.
    + vm_compute. reflexivity.
  - intros b s' w' H. rewrite (proj1 (proj2 debug_section_stops) _ _ _ _ _ _ H).
    vm_compute. reflexivity.
  - rewrite (proj2 (proj2 debug_section_stops) ["main:"; ".section .debug_info"; "movl %eax, %ebx"]).
    rewrite (proj2 (proj2 debug_section_stops) ["main:"; ".section .debug_info"]).
    vm_compute. reflexivity.
Defined.

(* ------------------------------------------------------------------ *)
(** ** The active function name [g.fcn] *)

(** A computation that leaves the attributes of [g] as they are. *)
Definition g_pure {A} (m : M A) : Prop := forall w, w_g (snd (m w)) = w_g w.

Lemma g_pure_ret {A} (a : A) : g_pure (mret a).
Proof. intros w. reflexivity. Qed.

Lemma g_pure_raise {A} e : g_pure (@raise A e).
Proof. intros w. reflexivity. Qed.

Lemma g_pure_lift {A} (r : result A) : g_pure (lift r).
Proof. destruct r; intros w; reflexivity. Qed.

Lemma g_pure_get_ref : g_pure get_ref.
Proof. intros w. reflexivity. Qed.

Lemma g_pure_set_ref r : g_pure (set_ref r).
Proof. intros w. reflexivity. Qed.

Lemma g_pure_g_get a : g_pure (g_get a).
Proof. intros w. unfold g_get. destruct (w_g w !! a); reflexivity. Qed.

Lemma g_pure_bind {A B} (m : M A) (k : A -> M B) :
  g_pure m -> (forall a, g_pure (k a)) -> g_pure (mbind m k).
Proof.
  intros Hm Hk w. unfold mbind. specialize (Hm w).
  destruct (m w) as [[a|e] w1]; simpl in *; [rewrite Hk|]; exact Hm.
Qed.

Ltac g_pure_tac :=
  repeat match goal with
  | |- g_pure (mbind _ _) => apply g_pure_bind; [|intros ?]
  | |- g_pure (mret _) => apply g_pure_ret
  | |- g_pure (raise _) => apply g_pure_raise
  | |- g_pure (lift _) => apply g_pure_lift
  | |- g_pure get_ref => apply g_pure_get_ref
  | |- g_pure (set_ref _) => apply g_pure_set_ref
  | |- g_pure (g_get _) => apply g_pure_g_get
  | |- g_pure (if ?b then _ else _) => destruct b eqn:?
  | |- g_pure (match ?x with _ => _ end) => destruct x eqn:?
  end.

Lemma g_pure_handle_mnemonic token cl : g_pure (handle_mnemonic token cl).
Proof. unfold handle_mnemonic. g_pure_tac. Qed.

Lemma g_pure_process_operand t : g_pure (process_operand t).
Proof. unfold process_operand, lookup_location. g_pure_tac. Qed.

Lemma g_pure_process_operands ts : g_pure (process_operands ts).
Proof.
  induction ts as [|t ts IH]; simpl; g_pure_tac; auto using g_pure_process_operand.
Qed.

Lemma g_pure_process_tokens ts : g_pure (process_tokens ts).
Proof.
  unfold process_tokens. g_pure_tac;
    auto using g_pure_handle_mnemonic, g_pure_process_operands.
Qed.

Lemma g_pure_step s line :
  mem_str "@function" (tokenize (prep_line line)) = false -> g_pure (step s line).
Proof.
  intros Hf. unfold step. destruct (tokenize (prep_line line)) as [|t0 trest].
  - apply g_pure_raise.
  - rewrite Hf. cbv zeta. g_pure_tac; auto using g_pure_process_tokens.
Qed.

Lemma g_pure_loop pre :
  Forall (fun l => mem_str "@function" (tokenize (prep_line l)) = false) pre ->
  forall s, g_pure (loop s pre).
Proof.
  induction 1 as [|l pre Hl Hpre IH]; intros s; simpl; g_pure_tac.
  all: first [apply g_pure_step; exact Hl | apply IH].
Qed.

(** A line that [process_asm] treats as an instruction and that has an
    operand for [process_operand] (one not starting with [#]). *)
Definition instr_with_operand (tokens : list string) : bool :=
  match tokens with
  | t0 :: trest =>
      negb (String.eqb t0 "") && negb (String.eqb t0 ".loc")
      && negb (startswith "." t0) && negb (endswith ":" t0)
      && negb (match trest with t1 :: _ => contains ".debug" t1 | [] => false end)
      && negb (mem_str "@function" tokens)
      && match merge_rep tokens with
         | Ok (m0 :: ops) =>
             negb (String.eqb m0 "") && negb (endswith ":" m0)
             && negb (startswith "." m0)
             && existsb (fun t => negb (startswith "#" t)) ops
         | _ => false
         end
  | [] => false
  end.

Lemma handle_mnemonic_ok token cl w :
  token <> "" ->
  exists p w', handle_mnemonic token cl w = (Ok p, w') /\ w_g w' = w_g w.
Proof.
  intros Hne. unfold handle_mnemonic, mbind, get_ref.
  destruct (w_ref w !! token); [eauto|].
  destruct (w_ref w !! drop_last token); [|eauto].
  destruct (last_char token) as [c|] eqn:Hc.
  - destruct (sizes c); [|eauto]. unfold set_ref, mret. eauto.
  - apply last_char_none in Hc. contradiction.
Qed.

Definition fcn_missing_error (e : exn) : Prop :=
  e = AttributeError "locs" \/ e = AttributeError "fcn".

Lemma process_operands_fail ops w :
  w_g w !! "fcn" = None ->
  existsb (fun t => negb (startswith "#" t)) ops = true ->
  exists e w', process_operands ops w = (Err e, w') /\ fcn_missing_error e.
Proof.
  intros Hf. revert w Hf. induction ops as [|t ops IH]; intros w Hf Hex; [discriminate|].
  cbn [existsb] in Hex. simpl process_operands. unfold mbind at 1.
  unfold process_operand. destruct (startswith "#" t) eqn:Hh.
  - cbn [negb orb] in Hex. unfold mret at 1. cbv beta iota.
    destruct (IH w Hf Hex) as (e & w' & Hr & He).
    unfold mbind. rewrite Hr. eauto.
  - unfold lookup_location, mbind, g_get. cbv beta.
    destruct (w_g w !! "locs") as [v|].
    + rewrite Hf. do 2 eexists. split; [reflexivity|]. right; reflexivity.
    + do 2 eexists. split; [reflexivity|]. left; reflexivity.
Qed.

Lemma process_tokens_fail tokens m0 ops w :
  w_g w !! "fcn" = None ->
  merge_rep tokens = Ok (m0 :: ops) ->
  m0 <> "" -> endswith ":" m0 = false -> startswith "." m0 = false ->
  existsb (fun t => negb (startswith "#" t)) ops = true ->
  exists e w', process_tokens tokens w = (Err e, w') /\ fcn_missing_error e.
Proof.
  intros Hf Hm Hne He Hs Hex. unfold process_tokens, mbind, lift.
  rewrite Hm. unfold mret at 1. rewrite He, Hs.
  destruct (handle_mnemonic_ok m0 "asm-token asm-mnemonic" w Hne) as (p & w1 & Hh & Hg).
  rewrite Hh.
  destruct (process_operands_fail ops w1) as (e & w2 & Hr & Hé);
    [rewrite Hg; exact Hf | exact Hex |].
  rewrite Hr. eauto.
Qed.

Lemma step_instr_fails s line w :
  w_g w !! "fcn" = None ->
  instr_with_operand (tokenize (prep_line line)) = true ->
  exists e w', step s line w = (Err e, w') /\ fcn_missing_error e.
Proof.
  intros Hf Hi. unfold step.
  destruct (tokenize (prep_line line)) as [|t0 trest] eqn:Ht; [discriminate|].
  unfold instr_with_operand in Hi.
  apply andb_prop in Hi as [Hi Hm]. apply andb_prop in Hi as [Hi Hf2].
  apply andb_prop in Hi as [Hi Hd]. apply andb_prop in Hi as [Hi He].
  apply andb_prop in Hi as [Hi Hs]. apply andb_prop in Hi as [E0 E1].
  apply negb_true_iff in E0, E1, Hs, He, Hd, Hf2.
  destruct (merge_rep (t0 :: trest)) as [[|m0 ops]|] eqn:Hmr; try discriminate.
  apply andb_prop in Hm as [Hm Hex]. apply andb_prop in Hm as [Hm Hs0].
  apply andb_prop in Hm as [Hne He0]. apply negb_true_iff in Hne, He0, Hs0.
  apply String.eqb_neq in Hne.
  destruct (process_tokens_fail (t0 :: trest) m0 ops w Hf Hmr Hne He0 Hs0 Hex)
    as (e & w' & Hr & Hé).
  rewrite E0, E1, Hs, He, Hd, Hf2. cbn [andb]. cbv zeta iota.
  unfold mbind at 1. unfold mret at 1. cbv beta iota.
  unfold mbind at 1. rewrite Hr. eauto.
Qed.

(** C3: [process_asm] sets [g.fnc], while [process_operand] reads
    [g.fcn].  On a request whose [g] has no [fcn] attribute, a listing
    whose first lines carry no [@function] token and reach, without
    stopping, an instruction line with an operand fails on that line with
    [AttributeError] (on [fcn], or on [locs] when that is missing too),
    whatever follows. *)
Theorem operand_before_function_fails (pre : list string) (line : string)
    (rest : list string) (w : world) s w1 :
  w_g w !! "fcn" = None ->
  Forall (fun l => mem_str "@function" (tokenize (prep_line l)) = false) pre ->
  loop init_st pre (mkWorld (<["fnc" := GNone]> (w_g w)) (w_ref w))
    = (Ok (false, s), w1) ->
  instr_with_operand (tokenize (prep_line line)) = true ->
  exists e w2, process_asm (pre ++ line :: rest) w = (Err e, w2) /\
               fcn_missing_error e.
Proof.
  intros Hf Hpre Hloop Hi.
  assert (Hg : w_g w1 = <["fnc" := GNone]> (w_g w)).
  { pose proof (g_pure_loop pre Hpre init_st
                 (mkWorld (<["fnc" := GNone]> (w_g w)) (w_ref w))) as Hp.
    rewrite Hloop in Hp. exact Hp. }
  assert (Hf1 : w_g w1 !! "fcn" = None).
  { rewrite Hg. rewrite lookup_insert_ne by discriminate. exact Hf. }
  destruct (step_instr_fails s line w1 Hf1 Hi) as (e & w2 & Hst & He).
  exists e, w2. split; [|exact He].
  unfold process_asm, g_set, mbind. cbv beta iota.
  rewrite loop_app, Hloop. simpl loop. unfold mbind. rewrite Hst. reflexivity.
Qed.

Lemma operand_before_function_fails_witness :
  process_asm [".text"; "main:"; "movl %eax, %ebx"; ".type main, @function"] w_demo
  = (Err (AttributeError "fcn"),
     mkWorld (<["fnc" := GNone]> (w_g w_demo))
       (<["mov" := resize 4 mov_demo]> (w_ref w_demo))).
Proof.
  destruct (operand_before_function_fails [".text"; "main:"] "movl %eax, %ebx"
              [".type main, @function"] w_demo
              (emitted (close_block init_st) [wrap_token "main:" "asm-token asm-label"])
              (mkWorld (<["fnc" := GNone]> (w_g w_demo)) (w_ref w_demo)))
    as (e & w2 & Hr & _).
  - vm_compute. reflexivity.
  - repeat constructor.
  - vm_compute. reflexivity.
  - vm_compute. reflexivity.
  - change [".text"; "main:"; "movl %eax, %ebx"; ".type main, @function"]
      with ([".text"; "main:"] ++ "movl %eax, %ebx" :: [".type main, @function"]).
    rewrite Hr. vm_compute in Hr. inversion Hr. reflexivity.
Defined.

(* ================================================================== *)
(** * Further properties of the tokenizer *)

Fixpoint all_chars (q : ascii -> bool) (s : string) : bool :=
  match s with
  | EmptyString => true
  | String c rest => q c && all_chars q rest
  end.

Lemma all_chars_app q s t :
  all_chars q (s +:+ t) = all_chars q s && all_chars q t.
Proof.
  induction s as [|c s IH]; simpl; [reflexivity|]. rewrite IH, andb_assoc. reflexivity.
Qed.

Lemma all_chars_rev q s : all_chars q (rev_str s) = all_chars q s.
Proof.
  induction s as [|c s IH]; simpl; [reflexivity|].
  rewrite all_chars_app, IH. simpl. rewrite andb_true_r, andb_comm. reflexivity.
Qed.

Lemma all_chars_lstrip q p s : all_chars q s = true -> all_chars q (lstrip_by p s) = true.
Proof.
  induction s as [|c s IH]; simpl; [auto|].
  intros H. apply andb_prop in H as [Hc Hs]. destruct (p c); [auto|].
  simpl. rewrite Hc, Hs. reflexivity.
Qed.

Lemma all_chars_strip q p s : all_chars q s = true -> all_chars q (strip_by p s) = true.
Proof.
  intros H. unfold strip_by, rstrip_by. rewrite all_chars_rev.
  apply all_chars_lstrip. rewrite all_chars_rev. apply all_chars_lstrip. exact H.
Qed.

Lemma all_chars_impl (q q' : ascii -> bool) s :
  (forall c, q c = true -> q' c = true) -> all_chars q s = true -> all_chars q' s = true.
Proof.
  intros Hq. induction s as [|c s IH]; simpl; [auto|].
  intros H. apply andb_prop in H as [Hc Hs]. rewrite (Hq c Hc), (IH Hs). reflexivity.
Qed.

Lemma has_char_all c s : has_char c s = negb (all_chars (fun d => negb (d =? c)%char) s).
Proof.
  induction s as [|d s IH]; simpl; [reflexivity|].
  rewrite IH. destruct (d =? c)%char; reflexivity.
Qed.

(** Pieces of [s.split(sep)] hold the characters of [s] but [sep]. *)
Lemma split_char_chars q sep s :
  all_chars q s = true ->
  Forall (fun p => all_chars (fun c => q c && negb (c =? sep)%char) p = true)
    (split_char sep s).
Proof.
  induction s as [|c s IH]; simpl; intros H; [repeat constructor|].
  apply andb_prop in H as [Hc Hs]. specialize (IH Hs).
  destruct (c =? sep)%char eqn:E.
  - constructor; [reflexivity|exact IH].
  - destruct (split_char sep s) as [|p ps]; [repeat constructor; simpl; rewrite Hc, E; reflexivity|].
    inversion IH; subst. constructor; [|assumption].
    simpl. rewrite Hc, E. simpl. assumption.
Qed.

(** Pieces of [re.split] drop the separator characters. *)
Lemma split_runs_chars p q s cur b :
  all_chars q cur = true ->
  all_chars (fun c => p c || q c) s = true ->
  Forall (fun t => all_chars q t = true) (split_runs_aux p s cur b).
Proof.
  revert cur b; induction s as [|c s IH]; intros cur b Hcur Hs; simpl.
  - repeat constructor. exact Hcur.
  - simpl in Hs. apply andb_prop in Hs as [Hc Hs].
    destruct (p c) eqn:Ep.
    + destruct b; [apply IH; auto|]. constructor; [exact Hcur|]. apply IH; auto.
    + apply IH; [|exact Hs]. rewrite all_chars_app, Hcur. simpl.
      simpl in Hc. rewrite Hc. reflexivity.
Qed.

Lemma py_split_chars q s :
  all_chars (fun c => is_py_space c || q c) s = true ->
  Forall (fun t => all_chars q t = true /\ t <> "") (py_split s).
Proof.
  intros H. unfold py_split, split_runs.
  pose proof (split_runs_chars is_py_space q s "" false eq_refl H) as Hf.
  induction Hf as [|t ts Ht _ IH]; simpl; [constructor|].
  destruct (String.eqb t "") eqn:E; simpl; [exact IH|].
  constructor; [|exact IH]. split; [exact Ht|]. apply String.eqb_neq. exact E.
Qed.

Lemma quote_tokens_chars q i bits :
  q quote_char = true ->
  Forall (fun b => all_chars q b = true) bits ->
  Forall (fun t => all_chars q t = true /\ t <> "") (quote_tokens i bits).
Proof.
  intros Hq Hb. revert i; induction Hb as [|b bs Hb _ IH]; intros i; simpl; [constructor|].
  apply Forall_app. split; [|apply IH].
  destruct (Nat.even i).
  - eapply Forall_impl; [apply py_split_chars|].
    + eapply all_chars_impl; [|exact Hb]. intros c ->. apply orb_true_r.
    + simpl. tauto.
  - constructor; [|constructor]. split; [|discriminate].
    rewrite !all_chars_app. simpl. rewrite Hq, Hb. reflexivity.
Qed.

Lemma has_char_rev c s : has_char c (rev_str s) = has_char c s.
Proof. rewrite !has_char_all, all_chars_rev. reflexivity. Qed.

Lemma has_char_strip p c s : p c = false -> has_char c (strip_by p s) = has_char c s.
Proof.
  intros Hp.
  assert (Hl : forall t, has_char c (lstrip_by p t) = has_char c t).
  { induction t as [|d t IH]; simpl; [reflexivity|].
    destruct (p d) eqn:Ed; [|reflexivity].
    rewrite IH. destruct (d =? c)%char eqn:E; [|reflexivity].
    apply Ascii.eqb_eq in E. subst. congruence. }
  unfold strip_by, rstrip_by. rewrite has_char_rev, Hl, has_char_rev, Hl. reflexivity.
Qed.

Lemma hd_split_char_chars q sep s :
  all_chars q s = true ->
  all_chars (fun c => q c && negb (c =? sep)%char) (hd EmptyString (split_char sep s)) = true.
Proof.
  intros H. pose proof (split_char_chars q sep s H) as Hf.
  destruct (split_char sep s) as [|p ps] eqn:E; [exfalso; eapply split_char_nonempty; eauto|].
  inversion Hf. assumption.
Qed.

Definition no_hash (c : ascii) : bool := negb (c =? hash_char)%char.

(** [tokenize] removes comments: no token contains [#], on either
    branch (quoted strings included, as the comment is cut first). *)
Theorem tokenize_no_hash (line : string) :
  Forall (fun tok => has_char hash_char tok = false) (tokenize line).
Proof.
  assert (Hgoal : Forall (fun tok => all_chars no_hash tok = true) (tokenize line)).
  { unfold tokenize.
    assert (H0 : all_chars no_hash (py_strip (hd EmptyString (split_char hash_char line))) = true).
    { apply all_chars_strip.
      eapply all_chars_impl; [|apply (hd_split_char_chars (fun _ => true))].
      - intros c Hc. exact Hc.
      - clear. induction line; simpl; auto. }
    destruct (has_char quote_char _) eqn:Hq; simpl.
    - eapply Forall_impl; [apply (quote_tokens_chars no_hash)|].
      + reflexivity.
      + eapply Forall_impl; [apply (split_char_chars no_hash quote_char _ H0)|].
        intros b Hb. eapply all_chars_impl; [|exact Hb].
        intros c Hc. apply andb_prop in Hc. tauto.
      + intros t [Ht _]. exact Ht.
    - apply split_runs_chars; [reflexivity|].
      eapply all_chars_impl; [|exact H0]. intros c ->. apply orb_true_r. }
  eapply Forall_impl; [exact Hgoal|]. intros tok Ht.
  rewrite has_char_all. unfold no_hash in Ht. rewrite Ht. reflexivity.
Qed.

Definition plain_char (c : ascii) : bool := negb (is_sep c) && no_hash c.

(** Without a double quote, every token is free of whitespace, commas
    and [#]: the line is cut at every run of separators. *)
Theorem tokenize_plain_tokens (line : string) :
  has_char quote_char line = false ->
  Forall (fun tok => all_chars plain_char tok = true) (tokenize line).
Proof.
  intros Hq. rewrite has_char_all in Hq. apply negb_false_iff in Hq.
  set (nq := fun d => negb (d =? quote_char)%char) in Hq.
  assert (H0 : all_chars (fun c => nq c && no_hash c)
                 (py_strip (hd EmptyString (split_char hash_char line))) = true).
  { apply all_chars_strip. apply hd_split_char_chars. exact Hq. }
  unfold tokenize.
  assert (Hn : has_char quote_char (py_strip (hd EmptyString (split_char hash_char line))) = false).
  { rewrite has_char_all. apply negb_false_iff.
    eapply all_chars_impl; [|exact H0]. intros c Hc. apply andb_prop in Hc. tauto. }
  rewrite Hn. simpl. apply split_runs_chars; [reflexivity|].
  eapply all_chars_impl; [|exact H0]. intros c Hc. apply andb_prop in Hc as [_ Hc].
  unfold plain_char. rewrite Hc. destruct (is_sep c); reflexivity.
Qed.

Lemma tokenize_plain_tokens_witness :
  has_char quote_char "mov %eax, %ebx # c" = false /\
  Forall (fun tok => all_chars plain_char tok = true) (tokenize "mov %eax, %ebx # c").
Proof.
  split; [reflexivity|]. apply tokenize_plain_tokens. reflexivity.
Defined.

(** When the text before the comment holds a double quote, no token is
    empty (the plain branch can give empty tokens, e.g. after a trailing
    comma). *)
Theorem tokenize_quoted_nonempty (line : string) :
  has_char quote_char (hd EmptyString (split_char hash_char line)) = true ->
  Forall (fun tok => tok <> "") (tokenize line).
Proof.
  intros Hq. unfold tokenize.
  unfold py_strip. rewrite has_char_strip by reflexivity. rewrite Hq. simpl.
  eapply Forall_impl; [apply (quote_tokens_chars (fun _ => true))|].
  - reflexivity.
  - apply Forall_forall. intros b _. clear. induction b; simpl; auto.
  - intros t [_ Ht]. exact Ht.
Qed.

Lemma tokenize_quoted_nonempty_witness :
  has_char quote_char (hd EmptyString (split_char hash_char
    (".ascii " +:+ str1 quote_char +:+ "x" +:+ str1 quote_char))) = true /\
  Forall (fun tok => tok <> "")
    (tokenize (".ascii " +:+ str1 quote_char +:+ "x" +:+ str1 quote_char)).
Proof.
  split; [reflexivity|]. apply tokenize_quoted_nonempty. reflexivity.
Defined.

(* ================================================================== *)
(** * Further properties of [handle_mnemonic] and [process_asm] *)

(** A world whose [g] holds a location table and a current function. *)
Definition loc_demo_entry : locentry := mkLoc "int" "x" "3" "local".

Definition w_locs : world :=
  mkWorld (<["fcn" := GStr "main"]>
            (<["locs" := GLocs (<["main" := <["x" := loc_demo_entry]> ∅]> ∅)]> ∅))
          (w_ref w_demo).

(* ------------------------------------------------------------------ *)
(** ** Size suffixes: the first suffix resolved for a base wins *)

Lemma resize_resize sz1 sz2 e : sz1 <> 0%Z -> resize sz2 (resize sz1 e) = resize sz1 e.
Proof.
  intros Hz. unfold resize. simpl. f_equal. rewrite map_map.
  apply map_ext. intros s. destruct (s =? 0)%Z eqn:E.
  - destruct (sz1 =? 0)%Z eqn:E1; [apply Z.eqb_eq in E1; contradiction|reflexivity].
  - rewrite E. reflexivity.
Qed.

Lemma sizes_nonzero c sz : sizes c = Some sz -> sz <> 0%Z.
Proof.
  unfold sizes. destruct (c =? "q")%char; [intros [=<-]; discriminate|].
  destruct (c =? "l")%char; [intros [=<-]; discriminate|].
  destruct (c =? "w")%char; [intros [=<-]; discriminate|].
  destruct (c =? "b")%char; [intros [=<-]; discriminate|discriminate].
Qed.

Lemma length_append_str s t : String.length (s +:+ t) = String.length s + String.length t.
Proof. induction s; simpl; auto. Qed.

Lemma length_rev_str s : String.length (rev_str s) = String.length s.
Proof.
  induction s; simpl; auto. rewrite length_append_str, IHs. simpl. lia.
Qed.

Lemma drop_last_neq t c : last_char t = Some c -> t <> drop_last t.
Proof.
  unfold last_char, drop_last. destruct (rev_str t) as [|d r] eqn:E; [discriminate|].
  intros _ Heq. apply (f_equal String.length) in Heq.
  rewrite length_rev_str in Heq. rewrite <- length_rev_str, E in Heq. simpl in Heq. lia.
Qed.

(** Resolving a suffixed mnemonic edits the entry of its base in [ref]
    in place; every later suffixed form of that base then gets the same
    entry, with the sizes of the first suffix, whatever its own suffix
    (e.g. [movq] then [movl] both show size 8). *)
Theorem suffix_first_wins (t1 t2 cl1 cl2 : string) (w : world) e c1 c2 sz1 sz2 :
  w_ref w !! t1 = None -> w_ref w !! t2 = None ->
  w_ref w !! drop_last t1 = Some e ->
  last_char t1 = Some c1 -> sizes c1 = Some sz1 ->
  drop_last t2 = drop_last t1 -> last_char t2 = Some c2 -> sizes c2 = Some sz2 ->
  let w1 := mkWorld (w_g w) (<[drop_last t1 := resize sz1 e]> (w_ref w)) in
  handle_mnemonic t1 cl1 w = (Ok (PMnemonic t1 (resize sz1 e)), w1) /\
  handle_mnemonic t2 cl2 w1 = (Ok (PMnemonic t2 (resize sz1 e)), w1).
Proof.
  intros H1 H2 Hb Hc1 Hs1 Hd Hc2 Hs2 w1. split.
  - unfold handle_mnemonic, mbind, get_ref. rewrite H1, Hb, Hc1, Hs1. reflexivity.
  - unfold handle_mnemonic, mbind, get_ref, w1. simpl.
    pose proof (drop_last_neq t2 c2 Hc2) as Hn. rewrite Hd in Hn.
    rewrite lookup_insert_ne by congruence. rewrite H2, Hd, lookup_insert_eq, Hc2, Hs2.
    unfold set_ref, mret. simpl. rewrite insert_insert_eq.
    rewrite resize_resize by (apply (sizes_nonzero c1); exact Hs1). reflexivity.
Qed.

Definition mov_entry : entry := mkEntry "mov" "mov src, dst" "move" "" [0%Z; 0%Z].

Lemma suffix_first_wins_witness :
  let w0 := mkWorld ∅ (<["mov" := mov_entry]> ∅) in
  let w1 := mkWorld ∅ (<["mov" := resize 8 mov_entry]> (<["mov" := mov_entry]> ∅)) in
  handle_mnemonic "movq" "c" w0 = (Ok (PMnemonic "movq" (resize 8 mov_entry)), w1) /\
  handle_mnemonic "movl" "c" w1 = (Ok (PMnemonic "movl" (resize 8 mov_entry)), w1).
Proof.
  intros w0 w1.
  exact (suffix_first_wins "movq" "movl" "c" "c" w0 mov_entry "q" "l" 8%Z 4%Z
           eq_refl eq_refl eq_refl eq_refl eq_refl eq_refl eq_refl eq_refl).
Defined.

(* ------------------------------------------------------------------ *)
(** ** Blank lines and comment lines *)

Lemma hd_split_char_cons sep d s :
  hd EmptyString (split_char sep (String d s)) =
  if (d =? sep)%char then EmptyString
  else String d (hd EmptyString (split_char sep s)).
Proof.
  simpl. destruct (d =? sep)%char; [reflexivity|].
  destruct (split_char sep s) eqn:E; [exfalso; eapply split_char_nonempty; eauto|].
  reflexivity.
Qed.

Lemma hd_split_char_app sep s t :
  hd EmptyString (split_char sep (s +:+ t)) =
  if has_char sep s then hd EmptyString (split_char sep s)
  else s +:+ hd EmptyString (split_char sep t).
Proof.
  induction s as [|d s IH]; [reflexivity|].
  change (String d s +:+ t) with (String d (s +:+ t)).
  rewrite !hd_split_char_cons, IH. simpl has_char.
  destruct (d =? sep)%char; simpl; [reflexivity|].
  destruct (has_char sep s); reflexivity.
Qed.

(** Replacing a character by a string keeps the text before the first
    [#] all blank, if the replacement has no [#] and is blank wherever
    the replaced character is. *)
Lemma replace_char_blank c r s :
  (c =? hash_char)%char = false -> has_char hash_char r = false ->
  (is_py_space c = true -> all_chars is_py_space r = true) ->
  all_chars is_py_space (hd EmptyString (split_char hash_char s)) = true ->
  all_chars is_py_space (hd EmptyString (split_char hash_char (replace_char c r s))) = true.
Proof.
  intros Hc Hr Hsp. induction s as [|d s IH]; simpl replace_char; [auto|].
  rewrite hd_split_char_cons. intros Hs.
  rewrite hd_split_char_app.
  destruct (d =? hash_char)%char eqn:Ed.
  - apply Ascii.eqb_eq in Ed. subst d.
    destruct (hash_char =? c)%char eqn:E.
    + apply Ascii.eqb_eq in E. subst c. rewrite Ascii.eqb_refl in Hc. discriminate.
    + reflexivity.
  - simpl in Hs. apply andb_prop in Hs as [Hd Hs].
    destruct (d =? c)%char eqn:E.
    + apply Ascii.eqb_eq in E. subst d. rewrite Hr.
      rewrite all_chars_app, Hsp, IH; auto.
    + simpl. rewrite Ed. simpl. rewrite Hd. apply IH. exact Hs.
Qed.

Lemma prep_line_blank line :
  all_chars is_py_space (hd EmptyString (split_char hash_char line)) = true ->
  all_chars is_py_space (hd EmptyString (split_char hash_char (prep_line line))) = true.
Proof.
  intros H. unfold prep_line.
  apply replace_char_blank; try reflexivity.
  apply replace_char_blank; try reflexivity; [discriminate|].
  apply replace_char_blank; try reflexivity; [discriminate|].
  exact H.
Qed.

Lemma lstrip_all p s : all_chars p s = true -> lstrip_by p s = EmptyString.
Proof.
  induction s as [|c s IH]; simpl; [auto|].
  intros H. apply andb_prop in H as [-> H]. auto.
Qed.

Lemma step_blank s line w :
  all_chars is_py_space (hd EmptyString (split_char hash_char line)) = true ->
  step s line w = (Ok (false, s), w).
Proof.
  intros H. apply prep_line_blank in H.
  assert (Ht : tokenize (prep_line line) = [EmptyString]).
  { unfold tokenize. unfold py_strip, strip_by.
    rewrite (lstrip_all _ _ H). reflexivity. }
  unfold step. rewrite Ht. reflexivity.
Qed.

(** A line that is empty, blank or only a comment ([# ...] after
    blanks) is skipped: removing it from the listing changes neither the
    result of [process_asm] nor its effects. *)
Theorem blank_line_skipped (pre rest : list string) (line : string) (w : world) :
  all_chars is_py_space (hd EmptyString (split_char hash_char line)) = true ->
  process_asm (pre ++ line :: rest) w = process_asm (pre ++ rest) w.
Proof.
  intros H.
  assert (Hl : forall w0, loop init_st (pre ++ line :: rest) w0 = loop init_st (pre ++ rest) w0).
  { intros w0. rewrite !loop_app.
    destruct (loop init_st pre w0) as [[[[|] s1]|e] w1]; try reflexivity.
    simpl. unfold mbind at 1. rewrite (step_blank s1 line w1 H). reflexivity. }
  unfold process_asm, mbind, g_set. cbv beta iota. rewrite Hl. reflexivity.
Qed.

Lemma blank_line_skipped_witness :
  all_chars is_py_space (hd EmptyString (split_char hash_char "   # comment")) = true /\
  process_asm ["main:"; "   # comment"; "ret"] w_demo = process_asm ["main:"; "ret"] w_demo.
Proof.
  split; [reflexivity|].
  exact (blank_line_skipped ["main:"] ["ret"] "   # comment" w_demo eq_refl).
Defined.


(* ------------------------------------------------------------------ *)
(** ** Shape of the markup of [process_asm] *)

(** Net number of [<div>] each piece opens: the header, a colour block
    and an [asm-line] div stay open; the two [/.loc] closers and the
    [asm-line] closer close one; all other pieces are self-contained. *)
Definition div_delta (p : piece) : Z :=
  match p with
  | PHeaderOpen | PColorDiv _ _ | PLineOpen => 1
  | PCloseLoc | PEnd | PLineClose => -1
  | _ => 0
  end.

Definition div_depth (m : list piece) : Z :=
  fold_right (fun p acc => (div_delta p + acc)%Z) 0%Z m.

(** The numbers shown in the [asm-no] divs, in order. *)
Definition line_numbers (m : list piece) : list Z :=
  flat_map (fun p => match p with PLineNo n => [n] | _ => [] end) m.

Definition token_piece (p : piece) : bool :=
  match p with PWrap _ _ | PMnemonic _ _ => true | _ => false end.

Definition markup_inv (s : st) : Prop :=
  div_depth (markup s) = (if block_is_open s then 1 else 0)%Z /\
  line_numbers (markup s) = map Z.of_nat (seq 1 (Z.to_nat (asmline s))) /\
  (0 <= asmline s)%Z.

Lemma div_depth_app m1 m2 : div_depth (m1 ++ m2) = (div_depth m1 + div_depth m2)%Z.
Proof. induction m1; simpl; [reflexivity|]. rewrite IHm1. lia. Qed.

Lemma line_numbers_app m1 m2 : line_numbers (m1 ++ m2) = line_numbers m1 ++ line_numbers m2.
Proof. unfold line_numbers. apply flat_map_app. Qed.

Lemma token_pieces_shape ps :
  Forall (fun p => token_piece p = true) ps -> div_depth ps = 0%Z /\ line_numbers ps = [].
Proof.
  induction 1 as [|p ps Hp _ [IH1 IH2]]; [split; reflexivity|].
  destruct p; try discriminate; simpl; rewrite IH1; split; auto.
Qed.

Lemma handle_mnemonic_piece t cl w p w' :
  handle_mnemonic t cl w = (Ok p, w') -> token_piece p = true.
Proof.
  unfold handle_mnemonic, mbind, get_ref. destruct (w_ref w !! t).
  { intros H. apply mret_inv in H as [<- _]. reflexivity. }
  destruct (w_ref w !! drop_last t).
  - destruct (last_char t); [|intros H; apply raise_inv in H; contradiction].
    destruct (sizes a).
    + unfold set_ref, mret. intros H. inversion H. reflexivity.
    + intros H. apply mret_inv in H as [<- _]. reflexivity.
  - intros H. apply mret_inv in H as [<- _]. reflexivity.
Qed.

Lemma process_operands_pieces ts w ps w' :
  process_operands ts w = (Ok ps, w') -> Forall (fun p => token_piece p = true) ps.
Proof.
  revert w ps; induction ts as [|t ts IH]; intros w ps H; simpl in H.
  { apply mret_inv in H as [<- _]. constructor. }
  bind_ok H. bind_ok H. apply mret_inv in H as [<- <-].
  apply Forall_app. split; [|eapply IH; exact Hm0].
  unfold process_operand in Hm. destruct (startswith "#" t).
  - apply mret_inv in Hm as [<- _]. constructor.
  - bind_ok Hm. apply mret_inv in Hm as [<- _]. repeat constructor.
Qed.

Lemma process_tokens_pieces ts w ps w' :
  process_tokens ts w = (Ok ps, w') -> Forall (fun p => token_piece p = true) ps.
Proof.
  unfold process_tokens. intros H. bind_ok H. apply lift_inv in Hm as [_ ->].
  destruct a as [|t0 rest]; [apply raise_inv in H; contradiction|].
  destruct (endswith ":" t0).
  { apply mret_inv in H as [<- _]. repeat constructor. }
  destruct (startswith "." t0).
  { apply mret_inv in H as [<- _]. constructor; [reflexivity|].
    apply Forall_map, Forall_forall. intros t _. reflexivity. }
  bind_ok H. bind_ok H. apply mret_inv in H as [<- _].
  constructor; [eapply handle_mnemonic_piece; eauto|eapply process_operands_pieces; eauto].
Qed.

Lemma close_block_inv s : markup_inv s -> markup_inv (close_block s).
Proof.
  unfold close_block. destruct (block_is_open s) eqn:Eb; [|auto].
  intros (Hd & Hl & Hn). unfold markup_inv; simpl.
  rewrite div_depth_app, line_numbers_app, Hd, Eb, Hl. simpl.
  rewrite app_nil_r. auto.
Qed.

Lemma step_inv s line w b s' w' :
  markup_inv s -> step s line w = (Ok (b, s'), w') -> markup_inv s'.
Proof.
  unfold step. intros Hi H.
  destruct (tokenize (prep_line line)) as [|t0 trest] eqn:Ht.
  { apply raise_inv in H; contradiction. }
  destruct (String.eqb t0 "").
  { apply mret_inv in H as [H _]. inversion H. subst. exact Hi. }
  destruct (String.eqb t0 ".loc").
  - bind_ok H. apply lift_inv in Hm as [_ ->].
    bind_ok H. apply lift_inv in Hm as [_ ->].
    destruct (assign_color (colors s) (blocknum s) a0) as [cs bn].
    destruct (cs !! a0) as [col|]; [|apply raise_inv in H; contradiction].
    apply mret_inv in H as [H _]. inversion H; subst.
    destruct Hi as (Hd & Hl & Hn). unfold markup_inv; simpl.
    rewrite !div_depth_app, !line_numbers_app, Hd, Hl.
    destruct (block_is_open s); simpl; rewrite ?app_nil_r; auto.
  - remember (if startswith "." t0 then close_block s else s) as s1 eqn:Es1.
    remember (if endswith ":" t0 then close_block s1 else s1) as s2 eqn:Es2.
    assert (Hs1 : markup_inv s1).
    { subst s1. destruct (startswith "." t0); auto using close_block_inv. }
    assert (Hs2 : markup_inv s2).
    { subst s2. destruct (endswith ":" t0); auto using close_block_inv. }
    clear Es1 Es2.
    destruct (startswith "." t0 && negb (endswith ":" t0)
              && negb (mem_str t0 whitelist)).
    { apply mret_inv in H as [H _]. inversion H. subst. exact Hi. }
    destruct (endswith ":" t0 && badlabel_match t0).
    { apply mret_inv in H as [H _]. inversion H. subst. exact Hs1. }
    destruct (match trest with t1 :: _ => contains ".debug" t1 | [] => false end).
    { apply mret_inv in H as [H _]. inversion H. subst. exact Hs2. }
    bind_ok H. bind_ok H. apply mret_inv in H as [H _]. injection H as _ <-.
    apply process_tokens_pieces, token_pieces_shape in Hm0 as [Hpd Hpl].
    destruct Hs2 as (Hd & Hl & Hn). unfold markup_inv. cbn [markup block_is_open asmline].
    set (n := (asmline s2 + 1)%Z).
    replace (PLineOpen :: PLineNo n :: a0 ++ [PLineClose])
      with ([PLineOpen; PLineNo n] ++ a0 ++ [PLineClose]) by reflexivity.
    rewrite !div_depth_app, !line_numbers_app, Hd, Hl, Hpd, Hpl.
    change (div_depth [PLineOpen; PLineNo n]) with 1%Z.
    change (div_depth [PLineClose]) with (-1)%Z.
    change (line_numbers [PLineOpen; PLineNo n]) with [n].
    change (line_numbers [PLineClose]) with (@nil Z).
    split; [lia|]. split; [|unfold n; lia].
    unfold n. rewrite Z2Nat.inj_add by lia. rewrite Nat.add_1_r, seq_S, map_app.
    rewrite app_nil_r. f_equal. simpl. f_equal. lia.
Qed.

Lemma loop_inv s asm w b s' w' :
  markup_inv s -> loop s asm w = (Ok (b, s'), w') -> markup_inv s'.
Proof.
  revert s w; induction asm as [|l rest IH]; intros s w Hi H; simpl in H.
  - apply mret_inv in H as [H _]. inversion H; subst. exact Hi.
  - bind_ok H. destruct a as [brk s1]. pose proof (step_inv _ _ _ _ _ _ Hi Hm) as Hs1.
    destruct brk.
    + apply mret_inv in H as [H _]. inversion H; subst. exact Hs1.
    + eapply IH; eauto.
Qed.

Lemma process_asm_inv asm w m cs w' :
  process_asm asm w = (Ok (m, cs), w') ->
  exists s, markup_inv s /\ m = markup s ++ [PEnd].
Proof.
  unfold process_asm. intros H. bind_ok H. bind_ok H. destruct a0 as [brk s].
  apply mret_inv in H as [H _]. inversion H; subst.
  exists s. split; [|reflexivity].
  eapply loop_inv; [|exact Hm0]. unfold markup_inv; simpl.
  split; [reflexivity|split; [reflexivity|lia]].
Qed.

(** The [asm-no] divs of a successful run number the emitted lines
    [1, 2, ..., n] in order, with no gap and no repetition, whatever
    lines were skipped, cut or turned into [.loc] blocks. *)
Theorem asm_line_numbers (asm : list string) (w : world) m cs w' :
  process_asm asm w = (Ok (m, cs), w') ->
  exists n, line_numbers m = map Z.of_nat (seq 1 n).
Proof.
  intros H. destruct (process_asm_inv _ _ _ _ _ H) as (s & (_ & Hl & _) & ->).
  exists (Z.to_nat (asmline s)). rewrite line_numbers_app, Hl. apply app_nil_r.
Qed.

Lemma asm_line_numbers_witness :
  exists m cs w', process_asm [".loc 1 3 0"; "main:"; "# c"; ".text"; "ret"] w_demo = (Ok (m, cs), w')
    /\ (exists n, line_numbers m = map Z.of_nat (seq 1 n)) /\ line_numbers m = [1%Z; 2%Z].
Proof.
  destruct (process_asm [".loc 1 3 0"; "main:"; "# c"; ".text"; "ret"] w_demo)
    as [[[m cs]|e] w'] eqn:E; [|vm_compute in E; discriminate].
  exists m, cs, w'. split; [reflexivity|]. split; [exact (asm_line_numbers _ _ _ _ _ E)|].
  vm_compute in E. injection E as <- _ _. reflexivity.
Defined.

(** Whether the group div of a [.loc] block (or the header) is open
    after a line, as the loop of [process_asm] sets [block_is_open]:
    opened by [.loc], closed by a kept directive or a label, except a
    compiler-internal label that does not start with [.]. *)
Definition block_after (o : bool) (line : string) : bool :=
  match tokenize (prep_line line) with
  | [] => o
  | t0 :: _ =>
      if String.eqb t0 "" then o
      else if String.eqb t0 ".loc" then true
      else if startswith "." t0 && negb (endswith ":" t0) && negb (mem_str t0 whitelist)
      then o
      else if endswith ":" t0 && badlabel_match t0
      then (if startswith "." t0 then false else o)
      else if startswith "." t0 || endswith ":" t0 then false else o
  end.

(** No prefix of [m], started at depth [d], closes more divs than are
    open: every closing tag closes a div opened before it. *)
Fixpoint nested (d : Z) (m : list piece) : bool :=
  match m with
  | [] => true
  | p :: rest => (0 <=? d + div_delta p)%Z && nested (d + div_delta p) rest
  end.

Lemma nested_app d m1 m2 :
  nested d (m1 ++ m2) = nested d m1 && nested (d + div_depth m1) m2.
Proof.
  revert d; induction m1 as [|p m1 IH]; intros d; simpl.
  - rewrite Z.add_0_r. reflexivity.
  - rewrite IH, Z.add_assoc. destruct (0 <=? d + div_delta p)%Z; reflexivity.
Qed.

Lemma nested_tokens d ps :
  Forall (fun p => token_piece p = true) ps -> (0 <= d)%Z -> nested d ps = true.
Proof.
  intros H Hd. induction H as [|p ps Hp _ IH]; [reflexivity|].
  destruct p; try discriminate; simpl; rewrite Z.add_0_r, IH;
    apply andb_true_intro; split; auto; apply Z.leb_le; exact Hd.
Qed.

Lemma close_block_shape s :
  markup_inv s -> nested 0 (markup s) = true ->
  nested 0 (markup (close_block s)) = true /\ block_is_open (close_block s) = false.
Proof.
  unfold close_block. intros (Hd & _ & _) Hn. destruct (block_is_open s) eqn:Eb; [|auto].
  simpl. rewrite nested_app, Hn, Hd. auto.
Qed.

Lemma step_shape s line w b s' w' :
  markup_inv s -> nested 0 (markup s) = true ->
  step s line w = (Ok (b, s'), w') ->
  nested 0 (markup s') = true /\ block_is_open s' = block_after (block_is_open s) line.
Proof.
  unfold step, block_after. intros Hi Hn H.
  destruct (tokenize (prep_line line)) as [|t0 trest] eqn:Ht.
  { apply raise_inv in H; contradiction. }
  destruct (String.eqb t0 "").
  { apply mret_inv in H as [H _]. inversion H. subst. auto. }
  destruct (String.eqb t0 ".loc").
  - bind_ok H. apply lift_inv in Hm as [_ ->].
    bind_ok H. apply lift_inv in Hm as [_ ->].
    destruct (assign_color (colors s) (blocknum s) a0) as [cs bn].
    destruct (cs !! a0) as [col|]; [|apply raise_inv in H; contradiction].
    apply mret_inv in H as [H _]. inversion H; subst. simpl. split; [|reflexivity].
    destruct Hi as (Hd & _ & _). rewrite !nested_app, Hn, Hd.
    destruct (block_is_open s); reflexivity.
  - pose proof (close_block_shape s Hi Hn) as [Hc1 Hc2].
    remember (if startswith "." t0 then close_block s else s) as s1 eqn:Es1.
    assert (Hs1 : markup_inv s1 /\ nested 0 (markup s1) = true /\
                  block_is_open s1 = if startswith "." t0 then false else block_is_open s).
    { subst s1. destruct (startswith "." t0); auto using close_block_inv. }
    remember (if endswith ":" t0 then close_block s1 else s1) as s2 eqn:Es2.
    assert (Hs2 : markup_inv s2 /\ nested 0 (markup s2) = true /\
                  block_is_open s2 = if endswith ":" t0 then false else block_is_open s1).
    { destruct Hs1 as (Hi1 & Hn1 & _). pose proof (close_block_shape s1 Hi1 Hn1) as [? ?].
      subst s2. destruct (endswith ":" t0); auto using close_block_inv. }
    clear Es1 Es2.
    destruct Hs1 as (Hi1 & Hn1 & Hb1). destruct Hs2 as (Hi2 & Hn2 & Hb2).
    assert (Hb : block_is_open s2 =
                 if startswith "." t0 || endswith ":" t0 then false else block_is_open s).
    { rewrite Hb2, Hb1. destruct (startswith "." t0), (endswith ":" t0); reflexivity. }
    destruct (startswith "." t0 && negb (endswith ":" t0)
              && negb (mem_str t0 whitelist)).
    { apply mret_inv in H as [H _]. inversion H. subst. auto. }
    destruct (endswith ":" t0 && badlabel_match t0).
    { apply mret_inv in H as [H _]. inversion H. subst. auto. }
    destruct (match trest with t1 :: _ => contains ".debug" t1 | [] => false end).
    { apply mret_inv in H as [H _]. inversion H. subst. auto. }
    bind_ok H. bind_ok H. apply mret_inv in H as [H _]. injection H as _ <-.
    cbn [markup block_is_open]. split; [|exact Hb].
    apply process_tokens_pieces in Hm0.
    pose proof (token_pieces_shape _ Hm0) as [Hpd _].
    destruct Hi2 as (Hd & _ & _).
    set (n := (asmline s2 + 1)%Z).
    replace (PLineOpen :: PLineNo n :: a0 ++ [PLineClose])
      with ([PLineOpen; PLineNo n] ++ a0 ++ [PLineClose]) by reflexivity.
    rewrite !nested_app, Hn2, Hd, Hpd.
    change (div_depth [PLineOpen; PLineNo n]) with 1%Z.
    rewrite (nested_tokens _ a0); [|exact Hm0|destruct (block_is_open s2); lia].
    destruct (block_is_open s2); reflexivity.
Qed.

Lemma loop_shape s asm w b s' w' :
  markup_inv s -> nested 0 (markup s) = true ->
  loop s asm w = (Ok (b, s'), w') ->
  nested 0 (markup s') = true /\
  block_is_open s' = fold_left block_after (processed asm) (block_is_open s).
Proof.
  revert s w; induction asm as [|l rest IH]; intros s w Hi Hn H; simpl in H.
  - apply mret_inv in H as [H _]. inversion H; subst. auto.
  - bind_ok H. destruct a as [brk s1].
    pose proof (step_shape _ _ _ _ _ _ Hi Hn Hm) as [Hn1 Hb1].
    pose proof (step_inv _ _ _ _ _ _ Hi Hm) as Hi1.
    pose proof (step_break _ _ _ _ _ _ Hm) as Hbr.
    simpl processed. rewrite <- Hbr. destruct brk.
    + apply mret_inv in H as [H _]. inversion H; subst. simpl. auto.
    + simpl. rewrite <- Hb1. eapply IH; eauto.
Qed.

(** [<div>] balance of the markup of a successful run: before the final
    closer, no closing tag closes more than was opened, and exactly one
    div (the current group) is still open if the processed part of the
    listing ends inside a group ([block_after] over [processed asm],
    starting from the open header), none otherwise. So the final closer,
    written unconditionally, balances the markup in the first case and
    is one closing tag too many in the second (e.g. [["main:"]]). *)
Theorem div_balance (asm : list string) (w : world) m cs w' :
  process_asm asm w = (Ok (m, cs), w') ->
  exists body, m = body ++ [PEnd] /\ nested 0 body = true /\
    div_depth body = (if fold_left block_after (processed asm) true then 1 else 0)%Z.
Proof.
  unfold process_asm. intros H. bind_ok H. bind_ok H. destruct a0 as [brk s].
  apply mret_inv in H as [H _]. inversion H; subst.
  assert (Hi0 : markup_inv init_st) by (unfold markup_inv; simpl; split; [reflexivity|split; [reflexivity|lia]]).
  pose proof (loop_shape _ _ _ _ _ _ Hi0 eq_refl Hm0) as [Hn Hb].
  pose proof (loop_inv _ _ _ _ _ _ Hi0 Hm0) as (Hd & _ & _).
  exists (markup s). split; [reflexivity|]. split; [exact Hn|].
  rewrite Hd, Hb. reflexivity.
Qed.

Lemma div_balance_witness :
  exists m cs w', process_asm ["main:"] w_demo = (Ok (m, cs), w')
    /\ (exists body, m = body ++ [PEnd] /\ nested 0 body = true /\
          div_depth body = (if fold_left block_after (processed ["main:"]) true then 1 else 0)%Z)
    /\ div_depth m = (-1)%Z.
Proof.
  destruct (process_asm ["main:"] w_demo) as [[[m cs]|e] w'] eqn:E;
    [|vm_compute in E; discriminate].
  exists m, cs, w'. split; [reflexivity|]. split; [exact (div_balance _ _ _ _ _ E)|].
  vm_compute in E. injection E as <- _ _. reflexivity.
Defined.

(* ------------------------------------------------------------------ *)
(** ** What [process_asm] writes: [g.fnc], [g.fcn] and size slots *)

(** A computation that leaves attribute [a] of [g] as it is. *)
Definition g_keeps {A} (a : string) (m : M A) : Prop :=
  forall w, w_g (snd (m w)) !! a = w_g w !! a.

Lemma g_pure_keeps {A} a (m : M A) : g_pure m -> g_keeps a m.
Proof. intros H w. rewrite H. reflexivity. Qed.

Lemma g_keeps_bind {A B} a (m : M A) (k : A -> M B) :
  g_keeps a m -> (forall x, g_keeps a (k x)) -> g_keeps a (mbind m k).
Proof.
  intros Hm Hk w. unfold mbind. specialize (Hm w).
  destruct (m w) as [[x|e] w1]; simpl in *; [rewrite Hk|]; exact Hm.
Qed.

Lemma g_keeps_set a b v : a <> b -> g_keeps a (g_set b v).
Proof. intros Hne w. simpl. apply lookup_insert_ne. congruence. Qed.

Lemma g_keeps_step a s line : a <> "fcn" -> g_keeps a (step s line).
Proof.
  intros Ha. unfold step. destruct (tokenize (prep_line line)) as [|t0 trest].
  { apply g_pure_keeps, g_pure_raise. }
  cbv zeta.
  repeat match goal with
  | |- g_keeps _ (mbind _ _) => apply g_keeps_bind; [|intros ?]
  | |- g_keeps _ (g_set _ _) => apply g_keeps_set; congruence
  | |- g_keeps _ (process_tokens _) => apply g_pure_keeps, g_pure_process_tokens
  | |- g_keeps _ (mret _) => apply g_pure_keeps, g_pure_ret
  | |- g_keeps _ (raise _) => apply g_pure_keeps, g_pure_raise
  | |- g_keeps _ (lift _) => apply g_pure_keeps, g_pure_lift
  | |- g_keeps _ (if ?b then _ else _) => destruct b
  | |- g_keeps _ (match ?x with _ => _ end) => destruct x
  end.
Qed.

Lemma g_keeps_loop a s asm : a <> "fcn" -> g_keeps a (loop s asm).
Proof.
  intros Ha. revert s; induction asm as [|l rest IH]; intros s; simpl.
  { apply g_pure_keeps, g_pure_ret. }
  apply g_keeps_bind; [apply g_keeps_step, Ha|]. intros [[|] s1]; [|apply IH].
  apply g_pure_keeps, g_pure_ret.
Qed.

(** Of the attributes of [g], a run of [process_asm] (successful or
    not) writes only [g.fnc] (set to [None] at the start) and [g.fcn]
    (on [@function] lines); every other attribute, e.g. [g.locs], is
    left as it was. *)
Theorem process_asm_g_attrs (asm : list string) (w : world) (a : string) :
  a <> "fnc" -> a <> "fcn" ->
  w_g (snd (process_asm asm w)) !! a = w_g w !! a.
Proof.
  intros H1 H2. unfold process_asm. revert w.
  apply g_keeps_bind; [apply g_keeps_set, H1|]. intros _.
  apply g_keeps_bind; [apply g_keeps_loop, H2|]. intros r.
  apply g_pure_keeps, g_pure_ret.
Qed.

Lemma process_asm_g_attrs_witness :
  w_g (snd (process_asm [".type main, @function"; "ret"] w_locs)) !! "locs"
  = w_g w_locs !! "locs".
Proof.
  exact (process_asm_g_attrs [".type main, @function"; "ret"] w_locs "locs"
           ltac:(discriminate) ltac:(discriminate)).
Defined.

(** A size slot may only be filled: kept, or [0] replaced. *)
Definition size_step (x y : Z) : Prop := x = y \/ x = 0%Z.

Definition entry_grows (e e' : entry) : Prop :=
  e_name e' = e_name e /\ e_syn e' = e_syn e /\ e_desc e' = e_desc e /\
  e_flags e' = e_flags e /\ Forall2 size_step (e_size e) (e_size e').

(** [r'] has the keys of [r], each entry grown from the one of [r]. *)
Definition ref_grows (r r' : gmap string entry) : Prop :=
  forall k, match r !! k, r' !! k with
            | Some e, Some e' => entry_grows e e'
            | None, None => True
            | _, _ => False
            end.

Definition ref_mono {A} (m : M A) : Prop :=
  forall w, ref_grows (w_ref w) (w_ref (snd (m w))).

Lemma entry_grows_refl e : entry_grows e e.
Proof.
  repeat split. induction (e_size e); constructor; [left|]; auto.
Qed.

Lemma size_steps_trans l1 l2 l3 :
  Forall2 size_step l1 l2 -> Forall2 size_step l2 l3 -> Forall2 size_step l1 l3.
Proof.
  intros H12. revert l3. induction H12 as [|x y l1 l2 Hxy _ IH]; intros l3 H23;
    inversion H23 as [|y' z l2' l3' Hyz H23']; subst; constructor; [|auto].
  unfold size_step in *. destruct Hxy, Hyz; subst; auto.
Qed.

Lemma ref_grows_refl r : ref_grows r r.
Proof. intros k. destruct (r !! k); auto using entry_grows_refl. Qed.

Lemma ref_grows_trans r1 r2 r3 : ref_grows r1 r2 -> ref_grows r2 r3 -> ref_grows r1 r3.
Proof.
  intros H12 H23 k. specialize (H12 k). specialize (H23 k).
  destruct (r1 !! k), (r2 !! k), (r3 !! k); try contradiction; auto.
  destruct H12 as (? & ? & ? & ? & ?), H23 as (? & ? & ? & ? & ?).
  repeat split; try congruence. eapply size_steps_trans; eauto.
Qed.

Lemma entry_grows_resize sz e : entry_grows e (resize sz e).
Proof.
  repeat split. simpl. induction (e_size e) as [|x l IH]; simpl; constructor; [|exact IH].
  unfold size_step. destruct (x =? 0)%Z eqn:E; [right; apply Z.eqb_eq; exact E|left; reflexivity].
Qed.

Lemma ref_mono_pure {A} (m : M A) : (forall w, w_ref (snd (m w)) = w_ref w) -> ref_mono m.
Proof. intros H w. rewrite H. apply ref_grows_refl. Qed.

Lemma ref_mono_bind {A B} (m : M A) (k : A -> M B) :
  ref_mono m -> (forall x, ref_mono (k x)) -> ref_mono (mbind m k).
Proof.
  intros Hm Hk w. unfold mbind. specialize (Hm w).
  destruct (m w) as [[x|e] w1] eqn:E; simpl in *; [|exact Hm].
  eapply ref_grows_trans; [exact Hm|apply Hk].
Qed.

Lemma ref_mono_handle_mnemonic t cl : ref_mono (handle_mnemonic t cl).
Proof.
  intros w. unfold handle_mnemonic, mbind, get_ref.
  destruct (w_ref w !! t); [apply ref_grows_refl|].
  destruct (w_ref w !! drop_last t) as [e|] eqn:Eb; [|apply ref_grows_refl].
  destruct (last_char t); [|apply ref_grows_refl].
  destruct (sizes a) as [sz|]; [|apply ref_grows_refl].
  simpl. intros k. destruct (decide (k = drop_last t)) as [->|Hne].
  - rewrite lookup_insert_eq, Eb. apply entry_grows_resize.
  - rewrite lookup_insert_ne by congruence.
    destruct (w_ref w !! k); auto using entry_grows_refl.
Qed.

Ltac ref_mono_tac :=
  repeat match goal with
  | |- ref_mono (mbind _ _) => apply ref_mono_bind; [|intros ?]
  | |- ref_mono (handle_mnemonic _ _) => apply ref_mono_handle_mnemonic
  | |- ref_mono (mret _) => apply ref_mono_pure; reflexivity
  | |- ref_mono (raise _) => apply ref_mono_pure; reflexivity
  | |- ref_mono (lift ?r) => destruct r; apply ref_mono_pure; reflexivity
  | |- ref_mono (g_get ?a) => apply ref_mono_pure; intros ?; unfold g_get;
                              destruct (_ !! a); reflexivity
  | |- ref_mono (g_set _ _) => apply ref_mono_pure; reflexivity
  | |- ref_mono (if ?b then _ else _) => destruct b
  | |- ref_mono (match ?x with _ => _ end) => destruct x
  end.

Lemma ref_mono_process_operands ts : ref_mono (process_operands ts).
Proof.
  induction ts as [|t ts IH]; simpl; ref_mono_tac; [|exact IH].
  unfold process_operand, lookup_location. ref_mono_tac.
Qed.

Lemma ref_mono_process_tokens ts : ref_mono (process_tokens ts).
Proof.
  unfold process_tokens. ref_mono_tac. apply ref_mono_process_operands.
Qed.

Lemma ref_mono_step s line : ref_mono (step s line).
Proof.
  unfold step. destruct (tokenize (prep_line line)) as [|t0 trest].
  { apply ref_mono_pure; reflexivity. }
  cbv zeta. ref_mono_tac; apply ref_mono_process_tokens.
Qed.

Lemma ref_mono_loop s asm : ref_mono (loop s asm).
Proof.
  revert s; induction asm as [|l rest IH]; intros s; simpl; ref_mono_tac;
    auto using ref_mono_step.
Qed.

(** A run of [process_asm] (successful or not) never adds or removes a
    mnemonic of the table [ref] and never changes the name, syntax,
    description or flags of an entry; it only fills size slots that
    held [0], and a slot once non-zero keeps its value. *)
Theorem process_asm_ref_grows (asm : list string) (w : world) :
  ref_grows (w_ref w) (w_ref (snd (process_asm asm w))).
Proof.
  revert w. change (ref_mono (process_asm asm)).
  unfold process_asm. ref_mono_tac. apply ref_mono_loop.
Qed.

(* ------------------------------------------------------------------ *)
(** ** [format_c] with the colours of [process_asm] *)

Lemma format_c_lines_lookup hl cs n c i :
  format_c_lines hl cs n c !! i =
  option_map (fun line => SrcLine (Z.of_nat (n + i) + 1) (cs !! (Z.of_nat (n + i) + 1)%Z) (hl line))
             (c !! i).
Proof.
  revert n i; induction c as [|line c IH]; intros n i; [reflexivity|].
  destruct i as [|i]; simpl.
  - rewrite Nat.add_0_r. reflexivity.
  - rewrite IH. f_equal. rewrite Nat.add_succ_r. reflexivity.
Qed.

Lemma format_c_lines_length hl cs n c : length (format_c_lines hl cs n c) = length c.
Proof. revert n; induction c; intros n; simpl; auto. Qed.

Lemma first_seen_fold_elem (x : Z) (ls acc : list Z) :
  x ∈ fold_left (fun acc c => if decide (c ∈ acc) then acc else acc ++ [c]) ls acc
  <-> x ∈ acc \/ x ∈ ls.
Proof.
  revert acc; induction ls as [|c ls IH]; intros acc; simpl.
  - split; [auto|]. intros [H|H]; [exact H|inversion H].
  - rewrite IH. rewrite elem_of_cons. destruct (decide (c ∈ acc)) as [Hc|Hc].
    + split; [tauto|]. intros [H|[->|H]]; auto.
    + rewrite elem_of_app, list_elem_of_singleton. tauto.
Qed.

Lemma first_seen_elem x ls : x ∈ first_seen ls <-> x ∈ ls.
Proof.
  unfold first_seen. rewrite first_seen_fold_elem. split; [intros [H|H]; [inversion H|exact H]|auto].
Qed.

(** [format_c] applied to the C source and the colour map of a
    successful [process_asm] run: it returns one [src-line] div per
    source line, in order, numbered from 1; line [l] gets a colour class
    exactly when some [.loc] line of the processed part of the listing
    ([processed asm]) names [l], and then the colour is the one of [l]'s
    rank among the distinct [.loc] line numbers of that part in
    first-seen order, round robin over [ncolors], as its assembly
    block. *)
Theorem format_c_loc_colors (hl : string -> string) (asm c : list string) (w : world) m cs w' :
  process_asm asm w = (Ok (m, cs), w') ->
  exists ps, format_c hl (Some c) cs = Some ps /\ length ps = length c /\
  forall (i : nat) line, c !! i = Some line ->
    exists col, ps !! i = Some (SrcLine (Z.of_nat i + 1) col (hl line)) /\
    match col with
    | None => (Z.of_nat i + 1)%Z ∉ loc_numbers (processed asm)
    | Some k => exists j : nat,
        first_seen (loc_numbers (processed asm)) !! j = Some (Z.of_nat i + 1)%Z
        /\ k = (Z.of_nat j mod ncolors + 1)%Z
    end.
Proof.
  intros H. destruct (process_asm_colors_processed _ _ _ _ _ H) as (bn & Hc).
  pose proof (color_inv_assign_colors (loc_numbers (processed asm))) as (_ & _ & Hdom & Hk).
  rewrite Hc in Hdom, Hk. simpl in Hdom, Hk.
  eexists. split; [reflexivity|]. split; [apply format_c_lines_length|].
  intros i line Hi. exists (cs !! (Z.of_nat i + 1)%Z).
  rewrite format_c_lines_lookup, Hi. split; [reflexivity|].
  destruct (cs !! (Z.of_nat i + 1)%Z) as [k|] eqn:Ek.
  - assert (Hin : (Z.of_nat i + 1)%Z ∈ first_seen (loc_numbers (processed asm)))
      by (apply Hdom; eauto).
    apply list_elem_of_lookup in Hin as [j Hj]. exists j. split; [exact Hj|].
    rewrite (Hk _ _ Hj) in Ek. congruence.
  - intros Hin. apply first_seen_elem, Hdom in Hin. rewrite Ek in Hin.
    destruct Hin; discriminate.
Qed.

Lemma format_c_loc_colors_witness :
  exists m cs w', process_asm [" .loc 1 2 0"; " ret"] w_demo = (Ok (m, cs), w') /\
  exists ps, format_c (fun x => x) (Some ["int f(void) {"; "return 0;"; "}"]) cs = Some ps
    /\ length ps = 3%nat /\
  forall (i : nat) line, ["int f(void) {"; "return 0;"; "}"] !! i = Some line ->
    exists col, ps !! i = Some (SrcLine (Z.of_nat i + 1) col line) /\
    match col with
    | None => (Z.of_nat i + 1)%Z ∉ loc_numbers (processed [" .loc 1 2 0"; " ret"])
    | Some k => exists j : nat,
        first_seen (loc_numbers (processed [" .loc 1 2 0"; " ret"])) !! j
          = Some (Z.of_nat i + 1)%Z
        /\ k = (Z.of_nat j mod ncolors + 1)%Z
    end.
Proof.
  do 3 eexists. split; [vm_compute; reflexivity|].
  eapply (format_c_loc_colors (fun x => x) [" .loc 1 2 0"; " ret"]
            ["int f(void) {"; "return 0;"; "}"] w_demo).
  vm_compute. reflexivity.
Defined.
